(** * Conway's Game of Life engine of [main.go]: a shallow embedding

    The engine part of [main.go] is embedded: the [cell] record, the grid
    [[][]*cell] as a matrix of pointers into a heap of cells, and the
    functions [getNextState], [aliveNeighbors], [makeCells] and [newCell].
    Cells are mutated through pointers, so the heap is explicit and every
    function threads it.  A run-time panic of Go (index out of range, nil
    dereference) is a value of the error monad [result]. *)

From Stdlib Require Import ZArith Lia.
From stdpp Require Import base tactics option numbers list.

Open Scope Z_scope.

(** ** Panics and the error monad *)

Inductive panic : Type :=
  | IndexOutOfRange
  | NilDereference.

Inductive result (A : Type) : Type :=
  | Ok (a : A)
  | Panic (p : panic).
Arguments Ok {A} a.
Arguments Panic {A} p.

Global Instance result_ret : MRet result := λ A a, Ok a.
Global Instance result_bind : MBind result := λ A B k m,
  match m with
  | Ok a => k a
  | Panic p => Panic p
  end.

(** ** Machine integers

    Go's [int] is 64 bits wide on the platforms the program targets.  The
    only arithmetic of the engine that can leave the range is [x-1], [x+2],
    [y-1] and [y+2] in [aliveNeighbors]; [count++] runs at most nine times
    from zero and [i++] runs below a bound that is itself an [int]. *)

Definition wrap (z : Z) : Z := (z + 2 ^ 63) `mod` 2 ^ 64 - 2 ^ 63.

(** ** Constants of the source *)

Definition rows : Z := 30.
Definition columns : Z := 30.

(** ** Cells, pointers, heap and grid *)

(** [drawable] is a [uint32] handle of the graphics library; the engine
    stores it and never computes with it. *)
Record cell : Type := mkCell {
  drawable : Z;
  alive : bool;
  aliveNext : bool;
  x : Z;
  y : Z
}.

Definition set_alive (b : bool) (c : cell) : cell :=
  mkCell (drawable c) b (aliveNext c) (x c) (y c).
Definition set_aliveNext (b : bool) (c : cell) : cell :=
  mkCell (drawable c) (alive c) b (x c) (y c).

(** A pointer [*cell] is [None] for nil and [Some l] for the address [l];
    the heap is the list of the cells allocated so far, in allocation
    order, so that an address is an index into it. *)
Abbreviation loc := nat (only parsing).
Abbreviation ptr := (option loc) (only parsing).
Abbreviation heap := (list cell) (only parsing).
Abbreviation grid := (list (list ptr)) (only parsing).

Definition deref (h : heap) (p : ptr) : option cell :=
  match p with
  | Some l => h !! l
  | None => None
  end.

(** Reading through a pointer: [c.f]. *)
Definition load (h : heap) (p : ptr) : result cell :=
  match deref h p with
  | Some c => Ok c
  | None => Panic NilDereference
  end.

(** Writing a field through a pointer: [c.f = v]. *)
Definition store (h : heap) (p : ptr) (f : cell → cell) : result heap :=
  match p with
  | Some l =>
      match h !! l with
      | Some c => Ok (<[l := f c]> h)
      | None => Panic NilDereference
      end
  | None => Panic NilDereference
  end.

(** Slice indexing [s[i]], with Go's bounds check. *)
Definition index {A : Type} (s : list A) (i : Z) : result A :=
  if i <? 0 then Panic IndexOutOfRange
  else match s !! Z.to_nat i with
       | Some a => Ok a
       | None => Panic IndexOutOfRange
       end.

(** ** Loops *)

(** Running a loop body over the successive values of the loop variable. *)
Fixpoint foldM {A St : Type} (body : A → St → result St) (l : list A) (s : St)
  : result St :=
  match l with
  | [] => Ok s
  | a :: l' => s' ← body a s; foldM body l' s'
  end.

(** [for i := lo; i < hi; i++ { body }] *)
Definition for_lt {St : Type} (lo hi : Z) (body : Z → St → result St) (s : St)
  : result St :=
  foldM body (seqZ lo (hi - lo)) s.

(** [for k, a := range s { body }], from index [k0] on *)
Fixpoint range_from {A St : Type} (k0 : nat) (s : list A)
    (body : nat → A → St → result St) (st : St) : result St :=
  match s with
  | [] => Ok st
  | a :: s' => st' ← body k0 a st; range_from (S k0) s' body st'
  end.

Definition range {A St : Type} (s : list A) (body : nat → A → St → result St)
  : St → result St :=
  range_from 0%nat s body.

(** ** [aliveNeighbors] *)

(** [cells[i][j]] followed by the dereference of the pointer found there. *)
Definition cell_at (h : heap) (cells : grid) (i j : Z) : result cell :=
  row ← index cells i;
  p ← index row j;
  load h p.

(** [cells[i][j].alive] *)
Definition alive_at (h : heap) (cells : grid) (i j : Z) : result bool :=
  c ← cell_at h cells i j; Ok (alive c).

(** The guard of the [continue] statement. *)
Definition skip (x y i j : Z) : bool :=
  ((i =? x) && (j =? y)) || (i <? 0) || (j <? 0) || (i >=? columns)
  || (j >=? rows).

Definition aliveNeighbors (h : heap) (cells : grid) (x y : Z) : result Z :=
  for_lt (wrap (x - 1)) (wrap (x + 2)) (λ i (count : Z),
    for_lt (wrap (y - 1)) (wrap (y + 2)) (λ j (count : Z),
      if skip x y i j then Ok count
      else
        a ← alive_at h cells i j;
        if a : bool then Ok (count + 1) else Ok count)
      count)
    0.

(** ** [getNextState] *)

(** The [switch] of the first pass, for the cell [c] at [(x, y)]. *)
Definition decide_cell (cells : grid) (x y : Z) (c : ptr) (h : heap)
  : result heap :=
  neighborsAlive ← aliveNeighbors h cells x y;
  cv ← load h c;
  if negb (alive cv) && (neighborsAlive =? 3) then
    store h c (set_aliveNext true)
  else if negb (alive cv) then
    Ok h
  else if alive cv && ((neighborsAlive <? 2) || (neighborsAlive >? 3)) then
    store h c (set_aliveNext false)
  else
    store h c (set_aliveNext true).

(** The assignment of the second pass: [c.alive = c.aliveNext]. *)
Definition commit_cell (c : ptr) (h : heap) : result heap :=
  cv ← load h c;
  store h c (set_alive (aliveNext cv)).

(** The loop nest
    [for x := range cells { for y, c := range cells[x] { body } }]
    that both passes share. *)
Definition each_cell (cells : grid) (body : Z → Z → ptr → heap → result heap)
    (h : heap) : result heap :=
  range cells (λ x _ h,
    row ← index cells (Z.of_nat x);
    range row (λ y c h, body (Z.of_nat x) (Z.of_nat y) c h) h) h.

Definition getNextState (cells : grid) (h : heap) : result heap :=
  h1 ← each_cell cells (decide_cell cells) h;
  each_cell cells (λ _ _, commit_cell) h1.

(** [getNextState] with the empty branch of the [switch] replaced by the
    assignment [c.aliveNext = false]. *)
Definition decide_cell_explicit (cells : grid) (x y : Z) (c : ptr) (h : heap)
  : result heap :=
  neighborsAlive ← aliveNeighbors h cells x y;
  cv ← load h c;
  if negb (alive cv) && (neighborsAlive =? 3) then
    store h c (set_aliveNext true)
  else if negb (alive cv) then
    store h c (set_aliveNext false)
  else if alive cv && ((neighborsAlive <? 2) || (neighborsAlive >? 3)) then
    store h c (set_aliveNext false)
  else
    store h c (set_aliveNext true).

Definition getNextState_explicit (cells : grid) (h : heap) : result heap :=
  h1 ← each_cell cells (decide_cell_explicit cells) h;
  each_cell cells (λ _ _, commit_cell) h1.

(** ** [makeCells] and [newCell]

    [newCell] draws one number from the global random source and creates
    one vertex array.  Both are outside the engine: [Intn2 k] stands for the
    value returned by the [k]-th call [rand.Intn(2)] of the run and
    [makeVao k] for the handle returned by the [k]-th call of [makeVao]
    (the vertex coordinates handed to it are floating-point numbers that
    never come back into the engine).  The state threaded through
    [makeCells] is the heap together with the number of cells created so
    far. *)

Section Init.

Variable Intn2 : nat → Z.
Variable makeVao : nat → Z.

Definition newCell (x y : Z) (w : heap * nat) : ptr * (heap * nat) :=
  let '(h, k) := w in
  let alive := Intn2 k =? 1 in
  (Some (length h),
   (h ++ [{| drawable := makeVao k; x := x; y := y; alive := alive;
             aliveNext := false |}], S k)).

Definition makeCells : result (grid * (heap * nat)) :=
  let cells : grid := replicate (Z.to_nat rows) [] in
  for_lt 0 rows (λ x st,
    for_lt 0 columns (λ y '(cells, w),
      let '(c, w') := newCell x y w in
      row ← index cells x;
      Ok (<[Z.to_nat x := row ++ [c]]> cells, w'))
      st)
    (cells, ([], 0%nat)).

End Init.

(** ** Orders of traversal

    [getNextState] visits the cells in row-major order.  To speak about
    other orders, [visit] runs a per-cell body over an explicit list of
    positions, fetching the pointer [cells[x][y]] at each of them;
    [positions] is the row-major list of the positions of a grid. *)

Fixpoint positions_from (k : nat) (cells : grid) : list (nat * nat) :=
  match cells with
  | [] => []
  | row :: cells' =>
      (pair k <$> seq 0 (length row)) ++ positions_from (S k) cells'
  end.

Definition positions (cells : grid) : list (nat * nat) :=
  positions_from 0 cells.

Definition visit (cells : grid) (body : Z → Z → ptr → heap → result heap)
    (order : list (nat * nat)) (h : heap) : result heap :=
  foldM (λ '(x, y) h,
    row ← index cells (Z.of_nat x);
    c ← index row (Z.of_nat y);
    body (Z.of_nat x) (Z.of_nat y) c h) order h.

(** [getNextState] with the cells of each pass taken in a given order. *)
Definition getNextState_in (cells : grid) (order1 order2 : list (nat * nat))
    (h : heap) : result heap :=
  h1 ← visit cells (decide_cell cells) order1 h;
  visit cells (λ _ _, commit_cell) order2 h1.

(** ** Grids

    A grid in the sense of the program is a [rows] by [columns] matrix of
    pointers to allocated, pairwise distinct cells: this is what
    [makeCells] builds. *)

Definition shape_ok (cells : grid) : Prop :=
  length cells = Z.to_nat rows ∧
  Forall (λ row : list ptr, length row = Z.to_nat columns) cells.

(** The cells of the grid are allocated and no two entries are aliases. *)
Definition separate (cells : grid) (h : heap) : Prop :=
  NoDup (mjoin cells) ∧ Forall (λ p, is_Some (deref h p)) (mjoin cells).

Definition wf (cells : grid) (h : heap) : Prop :=
  shape_ok cells ∧ separate cells h.

(** The pointer stored at a position, if the position exists. *)
Definition ptr_at (cells : grid) (x y : nat) : option ptr :=
  row ← cells !! x; row !! y.

(** The value that the [switch] of the first pass leaves in [aliveNext]. *)
Definition next_state (c : cell) (n : Z) : bool :=
  if negb (alive c) && (n =? 3) then true
  else if negb (alive c) then aliveNext c
  else if alive c && ((n <? 2) || (n >? 3)) then false
  else true.

(** The B3/S23 decision table of the specification. *)
Definition B3S23 (a : bool) (n : Z) : bool :=
  match a with
  | false => n =? 3
  | true => (n =? 2) || (n =? 3)
  end.

(** ** The Moore neighbourhood, as the specification describes it *)

(** The eight neighbours of [(x, y)] in the unbounded plane. *)
Definition moore (x y : Z) : list (Z * Z) :=
  [(x - 1, y - 1); (x - 1, y); (x - 1, y + 1);
   (x, y - 1); (x, y + 1);
   (x + 1, y - 1); (x + 1, y); (x + 1, y + 1)].

(** Column index in [[0, C)] and row index in [[0, R)]. *)
Definition in_grid (i j : Z) : bool :=
  (0 <=? i) && (i <? columns) && (0 <=? j) && (j <? rows).

(** The [alive] field of the cell at [(i, j)], [false] where there is none. *)
Definition alive_b (h : heap) (cells : grid) (i j : Z) : bool :=
  match alive_at h cells i j with
  | Ok b => b
  | Panic _ => false
  end.

(** The neighbours of [(x, y)] that lie in the grid and are alive. *)
Definition live_neighbors (h : heap) (cells : grid) (x y : Z) : list (Z * Z) :=
  List.filter (λ '(i, j), in_grid i j && alive_b h cells i j) (moore x y).

(** What one iteration of the inner loop of [aliveNeighbors] adds. *)
Definition contrib (h : heap) (cells : grid) (x y i j : Z) : Z :=
  if skip x y i j then 0 else Z.b2z (alive_b h cells i j).

Definition sumZ {A : Type} (f : A → Z) (l : list A) : Z :=
  foldr (λ a n, f a + n) 0 l.

(** Two heaps with the same [alive] field at every address. *)
Definition same_alive (h h' : heap) : Prop :=
  ∀ l : loc, alive <$> h !! l = alive <$> h' !! l.

(** The neighbours of [(x, y)] that lie in the grid, alive or not. *)
Definition candidates (x y : Z) : list (Z * Z) :=
  List.filter (λ '(i, j), in_grid i j) (moore x y).

(** ** What the two passes do to one cell *)

(** The neighbour count of the cell at [(x, y)]; [0] if counting panics. *)
Definition neighbors (h : heap) (cells : grid) (x y : nat) : Z :=
  match aliveNeighbors h cells (Z.of_nat x) (Z.of_nat y) with
  | Ok n => n
  | Panic _ => 0
  end.

(** The cell after the first pass, [h] being the heap before the pass. *)
Definition decided (h : heap) (cells : grid) (x y : nat) (c : cell) : cell :=
  set_aliveNext (next_state c (neighbors h cells x y)) c.

(** The cell after the first pass of [getNextState_explicit]. *)
Definition decided_explicit (h : heap) (cells : grid) (x y : nat) (c : cell)
  : cell :=
  set_aliveNext (B3S23 (alive c) (neighbors h cells x y)) c.

(** The cell after the second pass. *)
Definition committed (c : cell) : cell := set_alive (aliveNext c) c.

(** [updated cells F order h h']: the heap [h'] is [h] with [F x y] applied
    to the cell at every position [(x, y)] of [order], and nothing else
    changed. *)
Definition updated (cells : grid) (F : nat → nat → cell → cell)
    (order : list (nat * nat)) (h h' : heap) : Prop :=
  length h' = length h ∧
  (∀ x y l, (x, y) ∈ order → ptr_at cells x y = Some (Some l) →
            h' !! l = F x y <$> h !! l) ∧
  (∀ l, (∀ x y, (x, y) ∈ order → ptr_at cells x y ≠ Some (Some l)) →
        h' !! l = h !! l).

(** ** The grid that [makeCells] builds, in closed form *)

(** The cell created by the [k]-th call of [newCell] sits at address [k]
    and at position [(k / columns, k mod columns)]. *)
Definition initial_grid : grid :=
  (λ i, (λ j, Some (i * Z.to_nat columns + j)%nat)
           <$> seq 0 (Z.to_nat columns))
  <$> seq 0 (Z.to_nat rows).

Definition initial_heap (Intn2 makeVao : nat → Z) : heap :=
  (λ k, {| drawable := makeVao k;
           alive := Intn2 k =? 1;
           aliveNext := false;
           x := Z.of_nat (k / Z.to_nat columns);
           y := Z.of_nat (k `mod` Z.to_nat columns) |})
  <$> seq 0 (Z.to_nat (rows * columns)).

(** ** The states of the program

    [main] builds the grid once with [makeCells] and then calls
    [getNextState] on it once per frame; [draw] only reads.  A state is
    reachable if it is the state at one of the points between these
    calls. *)
Inductive reachable : grid → heap → Prop :=
  | reachable_init Intn2 makeVao cells h k :
      makeCells Intn2 makeVao = Ok (cells, (h, k)) → reachable cells h
  | reachable_step cells h h' :
      reachable cells h → getNextState cells h = Ok h' → reachable cells h'.

(** ** A sample run, for instantiating the theorems

    A random source whose draws alternate between [0] and [1], and vertex
    arrays numbered from [1]. *)
Definition demo_Intn2 (k : nat) : Z := Z.of_nat k `mod` 2.
Definition demo_makeVao (k : nat) : Z := Z.of_nat k + 1.
Definition demo_heap : heap := initial_heap demo_Intn2 demo_makeVao.

(** A 3 by 3 grid of dead cells: smaller than the constants [rows] and
    [columns] that [aliveNeighbors] checks its indices against. *)
Definition small_grid : grid :=
  (λ i, (λ j, Some (i * 3 + j)%nat) <$> seq 0 3) <$> seq 0 3.
Definition small_heap : heap :=
  (λ k, {| drawable := 0; alive := false; aliveNext := false;
           x := Z.of_nat (k / 3); y := Z.of_nat (k `mod` 3) |}) <$> seq 0 9.

(** An all-dead grid, and the same with one pending [aliveNext]. *)
Definition dead_heap : heap := initial_heap (λ _, 0) demo_makeVao.
Definition stale_heap : heap :=
  <[0%nat := {| drawable := 1; alive := false; aliveNext := true;
                x := 0; y := 0 |}]> dead_heap.

(** The [alive] field found at address [l] after a run, if the run
    returned and the address is allocated. *)
Definition alive_after (r : result heap) (l : loc) : option bool :=
  match r with
  | Ok h' => alive <$> h' !! l
  | Panic _ => None
  end.

(** ** The frame of [getNextState] *)

(** Same coordinates and same drawable handle. *)
Definition same_place (c c' : cell) : Prop :=
  x c' = x c ∧ y c' = y c ∧ drawable c' = drawable c.

Definition frame (h h' : heap) : Prop :=
  length h' = length h ∧
  ∀ l c, h !! l = Some c → ∃ c', h' !! l = Some c' ∧ same_place c c'.

(** ** Structural identity of grids *)

(** The part of the cell at [(i, j)] that the engine reads and writes. *)
Definition state_at (h : heap) (cells : grid) (i j : Z) : result (bool * bool) :=
  c ← cell_at h cells i j; Ok (alive c, aliveNext c).

(** Same dimensions and, cell for cell, the same [alive] and [aliveNext]
    values (outside the grid both sides have no cell). *)
Definition identical (cells1 : grid) (h1 : heap) (cells2 : grid) (h2 : heap)
  : Prop :=
  length <$> cells1 = length <$> cells2 ∧
  ∀ i j, state_at h1 cells1 i j = state_at h2 cells2 i j.

(** The call returns: it does not panic. *)
Definition returns {A : Type} (r : result A) : Prop :=
  match r with
  | Ok _ => True
  | Panic _ => False
  end.

Global Instance returns_dec {A : Type} (r : result A) : Decision (returns r).
Proof. destruct r; simpl; apply _. Defined.

(** Two runs end alike: with the same panic, or with related results. *)
Definition outcome {A B : Type} (R : A → B → Prop)
    (r1 : result A) (r2 : result B) : Prop :=
  match r1, r2 with
  | Ok a, Ok b => R a b
  | Panic p1, Panic p2 => p1 = p2
  | _, _ => False
  end.

(** The relation kept between the heaps of two runs on structurally
    identical grids. *)
Definition related (cells1 cells2 : grid) (h1 h2 : heap) : Prop :=
  identical cells1 h1 cells2 h2 ∧ separate cells1 h1 ∧ separate cells2 h2.

(** The sample run again, with other handles from the graphics library. *)
Definition demo_heap' : heap := initial_heap demo_Intn2 (λ _, 7).

(** ** Generations

    The run of the engine seen on the matrix of [alive] values: one
    generation of the rule on the bounded board, and the loop of [main]
    without its rendering. *)

(** The number of live neighbours of [(x, y)] in the matrix [P], over the
    neighbours that lie in the grid. *)
Definition count_live (P : Z → Z → bool) (x y : Z) : Z :=
  sumZ (λ '(i, j), Z.b2z (in_grid i j && P i j)) (moore x y).

Definition life_step (P : Z → Z → bool) : Z → Z → bool :=
  λ x y, B3S23 (P x y) (count_live P x y).

Fixpoint life_steps (n : nat) (P : Z → Z → bool) : Z → Z → bool :=
  match n with
  | O => P
  | S n' => life_steps n' (life_step P)
  end.

(** [n] iterations of [getNextState], as the loop of [main] makes them. *)
Fixpoint advance (n : nat) (cells : grid) (h : heap) : result heap :=
  match n with
  | O => Ok h
  | S n' => h' ← getNextState cells h; advance n' cells h'
  end.

(** The grid shows the matrix [P]: the cell at every position of the
    [columns] by [rows] board has [alive] equal to [P] there. *)
Definition shows (h : heap) (cells : grid) (P : Z → Z → bool) : Prop :=
  ∀ i j, 0 ≤ i < columns → 0 ≤ j < rows → alive_at h cells i j = Ok (P i j).

(** No dead cell of the grid has a pending [aliveNext]. *)
Definition clean (h : heap) (cells : grid) : Prop :=
  ∀ i j c, cell_at h cells i j = Ok c → alive c = false → aliveNext c = false.

(** The matrix drawn by [makeCells] from the random source. *)
Definition initial_matrix (Intn2 : nat → Z) : Z → Z → bool :=
  λ i j, Intn2 (Z.to_nat i * Z.to_nat columns + Z.to_nat j)%nat =? 1.

(** Some patterns: the 2 by 2 block with corner [(bx, by)], and the row
    and the column of three cells centred at [(bx, by)]. *)
Definition block (bx by_ : Z) : Z → Z → bool :=
  λ i j, ((i =? bx) || (i =? bx + 1)) && ((j =? by_) || (j =? by_ + 1)).

Definition blinker_x (bx by_ : Z) : Z → Z → bool :=
  λ i j, (j =? by_) && ((i =? bx - 1) || (i =? bx) || (i =? bx + 1)).


(** The two cells [(bx, 0)] and [(bx, 1)], against the border [j = 0]. *)
Definition domino_y (bx : Z) : Z → Z → bool :=
  λ i j, (i =? bx) && ((j =? 0) || (j =? 1)).

Definition all_dead : Z → Z → bool := λ _ _, false.

(** A heap for [initial_grid] that shows the matrix [P], with no pending
    [aliveNext]: what [makeCells] builds when the draws follow [P]. *)
Definition matrix_heap (P : Z → Z → bool) : heap :=
  initial_heap
    (λ k, Z.b2z (P (Z.of_nat (k / Z.to_nat columns))
                   (Z.of_nat (k `mod` Z.to_nat columns))))
    demo_makeVao.

(** The symmetries of the board: exchanging the two coordinates, and
    reversing the first one. *)
Definition transpose (P : Z → Z → bool) : Z → Z → bool := λ i j, P j i.
Definition mirror (P : Z → Z → bool) : Z → Z → bool :=
  λ i j, P (columns - 1 - i) j.

(** The grid of [makeCells] with the entry at [(3, 4)] replaced by nil. *)
Definition holed_grid : grid :=
  (λ i, (λ j, if ((i =? 3) && (j =? 4))%nat then None
              else Some (i * Z.to_nat columns + j)%nat)
           <$> seq 0 (Z.to_nat columns))
  <$> seq 0 (Z.to_nat rows).

(** ** Rendering

    [draw] talks to OpenGL and GLFW.  Their state is outside the program;
    what [draw] does to it is the sequence of the calls it makes.  The
    constants of the [gl] package are parameters. *)

Inductive gl_call : Type :=
  | glClear (mask : Z)
  | glUseProgram (program : Z)
  | glBindVertexArray (array : Z)
  | glDrawArrays (mode first count : Z)
  | glfwPollEvents
  | SwapBuffers (window : Z).

(** The length of the slice [square]: six vertices of three coordinates. *)
Definition len_square : Z := 18.

Section Draw.

Variable COLOR_BUFFER_BIT DEPTH_BUFFER_BIT TRIANGLES : Z.

(** [func (c *cell) draw()], on the cell value read through [c]. *)
Definition cell_draw (c : cell) : list gl_call :=
  [glBindVertexArray (drawable c);
   glDrawArrays TRIANGLES 0 (len_square / 3)].

(** The body of the loop nest of [draw]: [if c.alive { c.draw() }]. *)
Definition draw_cell (h : heap) (c : ptr) (calls : list gl_call)
  : result (list gl_call) :=
  cv ← load h c;
  if alive cv then Ok (calls ++ cell_draw cv) else Ok calls.

Definition draw (cells : grid) (window program : Z) (h : heap)
  : result (list gl_call) :=
  calls ← range cells (λ x _ calls,
             row ← index cells (Z.of_nat x);
             range row (λ _ c calls, draw_cell h c calls) calls)
           [glClear (Z.lor COLOR_BUFFER_BIT DEPTH_BUFFER_BIT);
            glUseProgram program];
  Ok (calls ++ [glfwPollEvents; SwapBuffers window]).

(** The body of the loop of [main], without the pacing by [time.Sleep]:
    it returns the calls of the frame and the next heap. *)
Definition main_frame (cells : grid) (window program : Z) (h : heap)
  : result (list gl_call * list cell) :=
  calls ← draw cells window program h;
  h' ← getNextState cells h;
  Ok (calls, h').

(** The loop of [main] for as long as [window.ShouldClose()] answers
    false, [n] times. *)
Fixpoint main_loop (n : nat) (cells : grid) (window program : Z) (h : heap)
  : result (list (list gl_call) * list cell) :=
  match n with
  | O => Ok ([], h)
  | S n' =>
      '(calls, h') ← main_frame cells window program h;
      '(rest, h'') ← main_loop n' cells window program h';
      Ok (calls :: rest, h'')
  end.

End Draw.

(** The cells of the grid in row-major order, as far as they exist. *)
Definition grid_cells (h : heap) (cells : grid) : list cell :=
  omap (deref h) (mjoin cells).

(** The live cells of the grid, in row-major order. *)
Definition live_cells (h : heap) (cells : grid) : list cell :=
  List.filter alive (grid_cells h cells).

(** * Basic facts *)

Lemma wrap_small z : - 2 ^ 63 ≤ z < 2 ^ 63 → wrap z = z.
Proof.
  intros Hz. unfold wrap.
  rewrite Z.mod_small; lia.
Qed.

Lemma bind_Ok {A B : Type} (a : A) (k : A → result B) : Ok a ≫= k = k a.
Proof. reflexivity. Qed.

Lemma bind_Panic {A B : Type} (p : panic) (k : A → result B) :
  Panic p ≫= k = Panic p.
Proof. reflexivity. Qed.

Lemma bind_Ok_inv {A B : Type} (m : result A) (k : A → result B) (b : B) :
  m ≫= k = Ok b → ∃ a, m = Ok a ∧ k a = Ok b.
Proof. destruct m as [a|p]; [eauto | discriminate]. Qed.

Lemma index_of_nat {A : Type} (s : list A) (k : nat) :
  index s (Z.of_nat k) =
  match s !! k with Some a => Ok a | None => Panic IndexOutOfRange end.
Proof.
  unfold index. destruct (Z.ltb_spec (Z.of_nat k) 0); [lia|].
  by rewrite Nat2Z.id.
Qed.

Lemma index_lookup {A : Type} (s : list A) (k : nat) (a : A) :
  s !! k = Some a → index s (Z.of_nat k) = Ok a.
Proof. intros H. by rewrite index_of_nat, H. Qed.

Lemma index_Ok_inv {A : Type} (s : list A) (i : Z) (a : A) :
  index s i = Ok a → 0 ≤ i ∧ s !! Z.to_nat i = Some a.
Proof.
  unfold index. destruct (Z.ltb_spec i 0); [discriminate|].
  destruct (s !! Z.to_nat i); [|discriminate]. intros [= ->]. auto.
Qed.

Lemma foldM_app {A St : Type} (body : A → St → result St) l1 l2 s :
  foldM body (l1 ++ l2) s = s' ← foldM body l1 s; foldM body l2 s'.
Proof.
  revert s. induction l1 as [|a l1 IH]; intros s; simpl; [done|].
  destruct (body a s) as [s1|p]; simpl; [apply IH | done].
Qed.

Lemma foldM_ext {A St : Type} (f g : A → St → result St) l s :
  (∀ a s, a ∈ l → f a s = g a s) → foldM f l s = foldM g l s.
Proof.
  revert s. induction l as [|a l IH]; intros s Hfg; simpl; [done|].
  rewrite Hfg by left.
  destruct (g a s) as [s1|p]; simpl; [|done].
  apply IH. intros b t Hb. apply Hfg. by right.
Qed.

(** A loop whose body keeps a relation to the initial state keeps it. *)
Lemma foldM_preserves {A St : Type} (R : St → St → Prop)
    (body : A → St → result St) l :
  (∀ s, R s s) → (∀ s1 s2 s3, R s1 s2 → R s2 s3 → R s1 s3) →
  (∀ a s s', a ∈ l → body a s = Ok s' → R s s') →
  ∀ s s', foldM body l s = Ok s' → R s s'.
Proof.
  intros Hrefl Htrans. induction l as [|a l IH]; intros Hbody s s'; simpl.
  - intros [= <-]. apply Hrefl.
  - intros Hrun. apply bind_Ok_inv in Hrun as (s1 & H1 & H2).
    eapply Htrans.
    + eapply Hbody; [by left | exact H1].
    + eapply IH; [|exact H2]. intros b t t' Hb. apply Hbody. by right.
Qed.

(** * Positions and pointers *)

Lemma ptr_at_Some cells x y p :
  ptr_at cells x y = Some p ↔ ∃ row, cells !! x = Some row ∧ row !! y = Some p.
Proof.
  unfold ptr_at. destruct (cells !! x) as [row|]; simpl.
  - split; [eauto | by intros (? & [= <-] & ?)].
  - split; [done | by intros (? & ? & ?)].
Qed.

Lemma ptr_at_elem_of cells x y p :
  ptr_at cells x y = Some p → p ∈ mjoin cells.
Proof.
  rewrite ptr_at_Some. intros (row & Hrow & Hp).
  apply list_elem_of_join. exists row. split.
  - eapply list_elem_of_lookup_2, Hp.
  - eapply list_elem_of_lookup_2, Hrow.
Qed.

(** Without aliases a pointer occurs at one position only. *)
Lemma ptr_at_inj cells x y x' y' p :
  NoDup (mjoin cells) →
  ptr_at cells x y = Some p → ptr_at cells x' y' = Some p →
  x = x' ∧ y = y'.
Proof.
  revert x x'. induction cells as [|row cells IH]; intros x x' Hnd H1 H2.
  { by rewrite ptr_at_Some in H1; destruct H1 as (? & ? & ?). }
  simpl in Hnd. apply NoDup_app in Hnd as (Hrow & Hdisj & Hrest).
  destruct x as [|x], x' as [|x'].
  - unfold ptr_at in H1, H2. simpl in *. split; [done|].
    eapply (NoDup_lookup row); eauto.
  - exfalso. unfold ptr_at in H1. simpl in H1.
    eapply Hdisj; [eapply list_elem_of_lookup_2, H1|].
    eapply (ptr_at_elem_of cells x' y'). exact H2.
  - exfalso. unfold ptr_at in H2. simpl in H2.
    eapply Hdisj; [eapply list_elem_of_lookup_2, H2|].
    eapply (ptr_at_elem_of cells x y). exact H1.
  - destruct (IH x x' Hrest) as [-> ->]; auto.
Qed.

Lemma separate_ptr_at cells h x y p :
  separate cells h → ptr_at cells x y = Some p →
  ∃ l c, p = Some l ∧ h !! l = Some c.
Proof.
  intros [_ Hall] Hp. apply ptr_at_elem_of in Hp.
  rewrite Forall_forall in Hall. destruct (Hall _ Hp) as [c Hc].
  destruct p as [l|]; [|done]. eauto.
Qed.

Lemma separate_length cells h h' :
  length h' = length h → separate cells h → separate cells h'.
Proof.
  intros Hlen [Hnd Hall]. split; [done|].
  eapply Forall_impl; [exact Hall|]. intros [l|] [c Hc]; [|done]. simpl in *.
  apply lookup_lt_is_Some_2. rewrite Hlen. eapply lookup_lt_Some, Hc.
Qed.

Lemma elem_of_positions_from k cells x y :
  (x, y) ∈ positions_from k cells ↔
  ∃ x0, x = (k + x0)%nat ∧ is_Some (ptr_at cells x0 y).
Proof.
  revert k. induction cells as [|row cells IH]; intros k; simpl.
  - split; [by intros ?%elem_of_nil|]. by intros (x0 & _ & [? ?]).
  - rewrite elem_of_app, list_elem_of_fmap, IH. split.
    + intros [(y0 & [= -> ->] & Hy)|(x0 & -> & Hp)].
      * exists 0%nat. split; [lia|]. apply elem_of_seq in Hy.
        unfold ptr_at. simpl. apply lookup_lt_is_Some_2. lia.
      * exists (S x0). split; [lia | done].
    + intros ([|x0] & -> & Hp).
      * left. exists y. split; [f_equal; lia|]. apply elem_of_seq.
        unfold ptr_at in Hp. simpl in Hp. apply lookup_lt_is_Some_1 in Hp. lia.
      * right. exists x0. split; [lia | done].
Qed.

Lemma elem_of_positions cells x y :
  (x, y) ∈ positions cells ↔ is_Some (ptr_at cells x y).
Proof.
  unfold positions. rewrite elem_of_positions_from. split.
  - by intros (x0 & -> & ?).
  - intros ?. by exists x.
Qed.

Lemma NoDup_positions_from k cells : NoDup (positions_from k cells).
Proof.
  revert k. induction cells as [|row cells IH]; intros k; simpl.
  { constructor. }
  apply NoDup_app. split; [|split; [|apply IH]].
  - apply NoDup_fmap_2; [|apply NoDup_seq]. by intros ? ? [= ->].
  - intros [x y] (y0 & [= -> ->] & _)%list_elem_of_fmap.
    rewrite elem_of_positions_from. intros (x0 & ? & _). lia.
Qed.

Lemma NoDup_positions cells : NoDup (positions cells).
Proof. apply NoDup_positions_from. Qed.

Lemma visit_cons cells body x y order h :
  visit cells body ((x, y) :: order) h =
  h' ← (row ← index cells (Z.of_nat x);
        c ← index row (Z.of_nat y);
        body (Z.of_nat x) (Z.of_nat y) c h);
  visit cells body order h'.
Proof. reflexivity. Qed.

Lemma visit_app cells body order1 order2 h :
  visit cells body (order1 ++ order2) h =
  h' ← visit cells body order1 h; visit cells body order2 h'.
Proof. apply foldM_app. Qed.

(** The nested [range] loops of the source visit [positions] in order. *)
Lemma range_row_visit (body : Z → Z → ptr → heap → result heap)
    (cells : grid) (x : nat) (row pre suf : list ptr) (h : heap) :
  cells !! x = Some row → row = pre ++ suf →
  range_from (length pre) suf
    (λ y c h, body (Z.of_nat x) (Z.of_nat y) c h) h =
  visit cells body (pair x <$> seq (length pre) (length suf)) h.
Proof.
  intros Hrow. revert pre h.
  induction suf as [|p suf IH]; intros pre h Heq; simpl; [done|].
  rewrite visit_cons, (index_lookup _ _ _ Hrow). simpl.
  rewrite (index_lookup row (length pre) p).
  2:{ subst row. by rewrite lookup_app_r, Nat.sub_diag by lia. }
  simpl. destruct (body _ _ p h) as [h1|e]; simpl; [|done].
  specialize (IH (pre ++ [p]) h1). rewrite length_app in IH. simpl in IH.
  rewrite Nat.add_1_r in IH. apply IH. by rewrite <- app_assoc.
Qed.

Lemma range_visit_from (body : Z → Z → ptr → heap → result heap)
    (cells pre suf : grid) (h : heap) :
  cells = pre ++ suf →
  range_from (length pre) suf
    (λ x _ h,
       row ← index cells (Z.of_nat x);
       range row (λ y c h, body (Z.of_nat x) (Z.of_nat y) c h) h) h =
  visit cells body (positions_from (length pre) suf) h.
Proof.
  revert pre h. induction suf as [|row suf IH]; intros pre h Heq; simpl; [done|].
  assert (Hrow : cells !! length pre = Some row).
  { subst cells. by rewrite lookup_app_r, Nat.sub_diag by lia. }
  rewrite (index_lookup _ _ _ Hrow), visit_app. simpl.
  unfold range.
  change 0%nat with (length (@nil (option nat))).
  rewrite (range_row_visit body cells _ row [] row h Hrow eq_refl).
  simpl. destruct (visit cells body _ h) as [h1|e]; simpl; [|done].
  specialize (IH (pre ++ [row]) h1). rewrite length_app in IH. simpl in IH.
  rewrite Nat.add_1_r in IH. apply IH. by rewrite <- app_assoc.
Qed.

Lemma each_cell_visit cells body h :
  each_cell cells body h = visit cells body (positions cells) h.
Proof. apply (range_visit_from body cells [] cells h eq_refl). Qed.

Lemma getNextState_visit cells h :
  getNextState cells h =
  getNextState_in cells (positions cells) (positions cells) h.
Proof.
  unfold getNextState, getNextState_in. rewrite each_cell_visit.
  destruct (visit _ _ _ h); simpl; [apply each_cell_visit | done].
Qed.

(** * Counting neighbours *)

Lemma skip_true x y i j :
  skip x y i j = true ↔
  (i = x ∧ j = y) ∨ i < 0 ∨ j < 0 ∨ columns ≤ i ∨ rows ≤ j.
Proof.
  unfold skip. rewrite !orb_true_iff, andb_true_iff, !Z.eqb_eq, !Z.ltb_lt,
    !Z.geb_le. tauto.
Qed.

Lemma skip_false x y i j :
  skip x y i j = false ↔
  ¬ (i = x ∧ j = y) ∧ 0 ≤ i < columns ∧ 0 ≤ j < rows.
Proof.
  rewrite <- not_true_iff_false, skip_true. lia.
Qed.

Lemma in_grid_true i j :
  in_grid i j = true ↔ 0 ≤ i < columns ∧ 0 ≤ j < rows.
Proof.
  unfold in_grid. rewrite !andb_true_iff, !Z.leb_le, !Z.ltb_lt. lia.
Qed.

Lemma in_grid_false i j :
  in_grid i j = false ↔ ¬ (0 ≤ i < columns ∧ 0 ≤ j < rows).
Proof. by rewrite <- not_true_iff_false, in_grid_true. Qed.

Lemma shape_ok_lookup cells i j :
  shape_ok cells → 0 ≤ i < columns → 0 ≤ j < rows →
  is_Some (ptr_at cells (Z.to_nat i) (Z.to_nat j)).
Proof.
  intros [Hlen Hrows] Hi Hj. unfold rows, columns in *.
  destruct (lookup_lt_is_Some_2 cells (Z.to_nat i)) as [row Hrow]; [lia|].
  rewrite Forall_forall in Hrows.
  assert (Hr : length row = Z.to_nat 30).
  { apply Hrows. eapply list_elem_of_lookup_2, Hrow. }
  destruct (lookup_lt_is_Some_2 row (Z.to_nat j)) as [p Hp]; [lia|].
  exists p. apply ptr_at_Some. eauto.
Qed.

Lemma cell_at_ptr h cells x y p :
  ptr_at cells x y = Some p →
  cell_at h cells (Z.of_nat x) (Z.of_nat y) = load h p.
Proof.
  rewrite ptr_at_Some. intros (row & Hrow & Hp). unfold cell_at.
  rewrite (index_lookup _ _ _ Hrow). simpl.
  by rewrite (index_lookup _ _ _ Hp).
Qed.

Lemma cell_at_Ok_inv h cells i j c :
  cell_at h cells i j = Ok c →
  0 ≤ i ∧ 0 ≤ j ∧ ∃ l, ptr_at cells (Z.to_nat i) (Z.to_nat j) = Some (Some l)
    ∧ h !! l = Some c.
Proof.
  unfold cell_at. intros H.
  apply bind_Ok_inv in H as (row & Hrow & H).
  apply bind_Ok_inv in H as (p & Hp & H).
  apply index_Ok_inv in Hrow as [? Hrow]. apply index_Ok_inv in Hp as [? Hp].
  unfold load in H. destruct p as [l|]; simpl in H; [|done].
  destruct (h !! l) as [c'|] eqn:Hl; [|done]. injection H as ->.
  do 2 (split; [done|]). exists l. split; [|done].
  apply ptr_at_Some. eauto.
Qed.

Lemma wf_cell_at h cells i j :
  wf cells h → 0 ≤ i < columns → 0 ≤ j < rows →
  ∃ l c, ptr_at cells (Z.to_nat i) (Z.to_nat j) = Some (Some l) ∧
         h !! l = Some c ∧ cell_at h cells i j = Ok c.
Proof.
  intros [Hshape Hsep] Hi Hj.
  destruct (shape_ok_lookup cells i j Hshape Hi Hj) as [p Hp].
  destruct (separate_ptr_at _ _ _ _ _ Hsep Hp) as (l & c & -> & Hc).
  exists l, c. do 2 (split; [done|]).
  rewrite <- (Z2Nat.id i), <- (Z2Nat.id j) by lia.
  rewrite (cell_at_ptr _ _ _ _ _ Hp). unfold load. simpl. by rewrite Hc.
Qed.

Lemma wf_alive_at h cells i j :
  wf cells h → 0 ≤ i < columns → 0 ≤ j < rows →
  alive_at h cells i j = Ok (alive_b h cells i j).
Proof.
  intros Hwf Hi Hj.
  destruct (wf_cell_at h cells i j Hwf Hi Hj) as (l & c & _ & _ & Hc).
  unfold alive_b, alive_at. by rewrite Hc.
Qed.

(** A loop that adds a weight to a counter at each iteration. *)
Lemma foldM_sum {A : Type} (body : A → Z → result Z) (w : A → Z) l c :
  (∀ a c, a ∈ l → body a c = Ok (c + w a)) →
  foldM body l c = Ok (c + sumZ w l).
Proof.
  revert c. induction l as [|a l IH]; intros c Hbody; simpl.
  - f_equal. lia.
  - rewrite Hbody by left. simpl. rewrite IH.
    + f_equal. lia.
    + intros b d Hb. apply Hbody. by right.
Qed.

Lemma sumZ_ext {A : Type} (f g : A → Z) l :
  (∀ a, a ∈ l → f a = g a) → sumZ f l = sumZ g l.
Proof.
  induction l as [|a l IH]; intros Hfg; simpl; [done|].
  rewrite Hfg by left. rewrite IH; [done|]. intros b Hb. apply Hfg. by right.
Qed.

Lemma seqZ_3 m : seqZ m 3 = [m; m + 1; m + 2].
Proof.
  rewrite !seqZ_cons by lia. simpl. rewrite seqZ_nil by lia.
  repeat f_equal; lia.
Qed.

(** On a well-formed grid [aliveNeighbors] never panics and returns the
    sum of the contributions of the positions its loops run over. *)
Lemma aliveNeighbors_sum h cells x y :
  wf cells h →
  aliveNeighbors h cells x y =
  Ok (sumZ (λ i, sumZ (contrib h cells x y i)
                   (seqZ (wrap (y - 1)) (wrap (y + 2) - wrap (y - 1))))
        (seqZ (wrap (x - 1)) (wrap (x + 2) - wrap (x - 1)))).
Proof.
  intros Hwf. unfold aliveNeighbors, for_lt.
  erewrite foldM_sum; [reflexivity|]. intros i c _.
  apply foldM_sum. intros j d _. unfold contrib.
  destruct (skip x y i j) eqn:Hskip.
  - f_equal. lia.
  - apply skip_false in Hskip as (_ & Hi & Hj).
    rewrite (wf_alive_at h cells i j Hwf Hi Hj). simpl.
    destruct (alive_b h cells i j); simpl; f_equal; lia.
Qed.

Lemma wrap_around_cell x : -1 ≤ x ≤ columns + rows → wrap x = x.
Proof. intros Hx. apply wrap_small. unfold rows, columns in *. lia. Qed.

Lemma contrib_center h cells x y : contrib h cells x y x y = 0.
Proof.
  unfold contrib. replace (skip x y x y) with true; [done|].
  symmetry. apply skip_true. auto.
Qed.

Lemma contrib_moore h cells x y i j :
  ¬ (i = x ∧ j = y) →
  contrib h cells x y i j = Z.b2z (in_grid i j && alive_b h cells i j).
Proof.
  intros Hne. unfold contrib. destruct (skip x y i j) eqn:Hs.
  - apply skip_true in Hs. replace (in_grid i j) with false; [done|].
    symmetry. apply in_grid_false. lia.
  - apply skip_false in Hs. replace (in_grid i j) with true; [done|].
    symmetry. apply in_grid_true. lia.
Qed.

Lemma length_filter_sumZ {A : Type} (f : A → bool) l :
  Z.of_nat (length (List.filter f l)) = sumZ (λ a, Z.b2z (f a)) l.
Proof.
  induction l as [|a l IH]; simpl; [done|].
  destruct (f a); simpl; rewrite <- IH; lia.
Qed.

(** For a cell of the grid, the count is the number of live in-grid
    Moore neighbours. *)
Lemma aliveNeighbors_moore h cells x y :
  wf cells h → 0 ≤ x < columns → 0 ≤ y < rows →
  aliveNeighbors h cells x y =
  Ok (Z.of_nat (length (live_neighbors h cells x y))).
Proof.
  intros Hwf Hx Hy. rewrite aliveNeighbors_sum by done.
  assert (Hc : columns = 30) by done. assert (Hr : rows = 30) by done.
  rewrite !wrap_around_cell by lia.
  replace (x + 2 - (x - 1)) with 3 by lia.
  replace (y + 2 - (y - 1)) with 3 by lia.
  rewrite !seqZ_3. unfold live_neighbors.
  rewrite (length_filter_sumZ (λ '(i, j), in_grid i j && alive_b h cells i j)).
  unfold moore. simpl.
  replace (x - 1 + 1) with x by lia. replace (y - 1 + 1) with y by lia.
  replace (x - 1 + 2) with (x + 1) by lia.
  replace (y - 1 + 2) with (y + 1) by lia.
  rewrite contrib_center. rewrite !contrib_moore by lia.
  f_equal. lia.
Qed.

(** The count only depends on the [alive] fields that the loops read. *)
Lemma aliveNeighbors_local h h' cells cells' x y :
  (∀ i j,
     i ∈ seqZ (wrap (x - 1)) (wrap (x + 2) - wrap (x - 1)) →
     j ∈ seqZ (wrap (y - 1)) (wrap (y + 2) - wrap (y - 1)) →
     skip x y i j = false →
     alive_at h cells i j = alive_at h' cells' i j) →
  aliveNeighbors h cells x y = aliveNeighbors h' cells' x y.
Proof.
  intros Hsame. unfold aliveNeighbors, for_lt.
  apply foldM_ext. intros i c Hi.
  apply foldM_ext. intros j d Hj.
  destruct (skip x y i j) eqn:Hskip; [done|].
  by rewrite (Hsame i j Hi Hj Hskip).
Qed.

Lemma load_same_alive h h' p :
  same_alive h h' →
  (c ← load h p; Ok (alive c)) = (c ← load h' p; Ok (alive c)).
Proof.
  intros Hsame. unfold load. destruct p as [l|]; simpl; [|done].
  specialize (Hsame l). destruct (h !! l), (h' !! l); simpl in *; congruence.
Qed.

Lemma alive_at_same_alive h h' cells i j :
  same_alive h h' → alive_at h cells i j = alive_at h' cells i j.
Proof.
  intros Hsame. unfold alive_at, cell_at.
  destruct (index cells i) as [row|]; simpl; [|done].
  destruct (index row j) as [p|]; simpl; [|done].
  by apply load_same_alive.
Qed.

Lemma aliveNeighbors_same_alive h h' cells x y :
  same_alive h h' → aliveNeighbors h cells x y = aliveNeighbors h' cells x y.
Proof.
  intros Hsame. apply aliveNeighbors_local. intros i j _ _ _.
  by apply alive_at_same_alive.
Qed.

Lemma elem_of_moore x y i j :
  (i, j) ∈ moore x y ↔
  x - 1 ≤ i ≤ x + 1 ∧ y - 1 ≤ j ≤ y + 1 ∧ ¬ (i = x ∧ j = y).
Proof.
  unfold moore. rewrite !elem_of_cons, elem_of_nil. split.
  - intros H. repeat destruct H as [H|H]; try done; injection H; lia.
  - intros (Hi & Hj & Hne).
    assert (i = x - 1 ∨ i = x ∨ i = x + 1) as [-> | [-> | ->]] by lia;
    assert (j = y - 1 ∨ j = y ∨ j = y + 1) as [-> | [-> | ->]] by lia;
    try (exfalso; lia); tauto.
Qed.

Lemma elem_of_candidates x y i j :
  (i, j) ∈ candidates x y ↔ (i, j) ∈ moore x y ∧ in_grid i j = true.
Proof.
  unfold candidates. rewrite !list_elem_of_In, filter_In. done.
Qed.

(** Only the neighbours in the grid are read; in particular not the
    centre. *)
Lemma aliveNeighbors_candidates h h' cells x y :
  0 ≤ x < columns → 0 ≤ y < rows →
  (∀ i j, (i, j) ∈ candidates x y →
          alive_at h cells i j = alive_at h' cells i j) →
  aliveNeighbors h cells x y = aliveNeighbors h' cells x y.
Proof.
  intros Hx Hy Hsame. assert (Hc : columns = 30) by done.
  assert (Hr : rows = 30) by done.
  apply aliveNeighbors_local. intros i j.
  rewrite !wrap_around_cell by lia. rewrite !elem_of_seqZ.
  intros Hi Hj Hskip. apply skip_false in Hskip. apply Hsame.
  apply elem_of_candidates. split.
  - apply elem_of_moore. lia.
  - apply in_grid_true. lia.
Qed.

Lemma filter_andb_length {A : Type} (f g : A → bool) l :
  (length (List.filter (λ a, f a && g a) l) ≤ length (List.filter f l))%nat.
Proof.
  induction l as [|a l IH]; simpl; [done|].
  destruct (f a), (g a); simpl; lia.
Qed.

Lemma live_neighbors_candidates h cells x y :
  (length (live_neighbors h cells x y) ≤ length (candidates x y))%nat.
Proof.
  unfold live_neighbors, candidates.
  etrans; [|apply (filter_andb_length (λ '(i, j), in_grid i j)
                     (λ '(i, j), alive_b h cells i j))].
  apply Nat.eq_le_incl, (f_equal length), filter_ext. by intros [i j].
Qed.

Lemma candidates_le_8 x y : (length (candidates x y) ≤ 8)%nat.
Proof. apply (filter_length_le _ (moore x y)). Qed.

Ltac decide_in_grid :=
  repeat match goal with
  | |- context [in_grid ?i ?j] =>
      first
        [ replace (in_grid i j) with true
            by (symmetry; apply in_grid_true; unfold rows, columns; lia)
        | replace (in_grid i j) with false
            by (symmetry; apply in_grid_false; unfold rows, columns; lia) ]
  end.

(** A cell on an edge of the grid has at most five neighbours in it. *)
Lemma candidates_edge x y :
  0 ≤ x < columns → 0 ≤ y < rows →
  x = 0 ∨ x = columns - 1 ∨ y = 0 ∨ y = rows - 1 →
  (length (candidates x y) ≤ 5)%nat.
Proof.
  intros Hx Hy Hedge. unfold candidates, moore.
  assert (Hc : columns = 30) by done. assert (Hr : rows = 30) by done.
  assert (Hxs : x = 0 ∨ 0 < x < columns - 1 ∨ x = columns - 1) by lia.
  assert (Hys : y = 0 ∨ 0 < y < rows - 1 ∨ y = rows - 1) by lia.
  destruct Hxs as [Hx0|[Hx0|Hx0]], Hys as [Hy0|[Hy0|Hy0]];
    try (exfalso; lia); simpl; decide_in_grid; simpl; lia.
Qed.

(** A corner cell has at most three. *)
Lemma candidates_corner x y :
  x = 0 ∨ x = columns - 1 → y = 0 ∨ y = rows - 1 →
  (length (candidates x y) ≤ 3)%nat.
Proof. intros [-> | ->] [-> | ->]; vm_compute; lia. Qed.

(** * One cell *)

Lemma set_aliveNext_id c : set_aliveNext (aliveNext c) c = c.
Proof. by destruct c. Qed.

Lemma store_Ok h l c f :
  h !! l = Some c → store h (Some l) f = Ok (<[l := f c]> h).
Proof. intros H. unfold store. by rewrite H. Qed.

Lemma load_Ok h l c : h !! l = Some c → load h (Some l) = Ok c.
Proof. intros H. unfold load. simpl. by rewrite H. Qed.

(** The [switch] writes [next_state] into [aliveNext]; its empty branch
    keeps the value that is there. *)
Lemma decide_cell_Ok cells h x y l c n :
  aliveNeighbors h cells x y = Ok n → h !! l = Some c →
  decide_cell cells x y (Some l) h =
  Ok (<[l := set_aliveNext (next_state c n) c]> h).
Proof.
  intros Hn Hc. unfold decide_cell. rewrite Hn. simpl.
  rewrite (load_Ok _ _ _ Hc). simpl. unfold next_state.
  destruct (negb (alive c) && (n =? 3)); [by apply store_Ok|].
  destruct (negb (alive c)).
  { by rewrite set_aliveNext_id, list_insert_id. }
  destruct (alive c && ((n <? 2) || (n >? 3))); by apply store_Ok.
Qed.

Lemma commit_cell_Ok h l c :
  h !! l = Some c → commit_cell (Some l) h = Ok (<[l := committed c]> h).
Proof.
  intros Hc. unfold commit_cell. rewrite (load_Ok _ _ _ Hc). simpl.
  by rewrite Hc.
Qed.

(** * One pass

    A pass whose body rewrites the visited cell in place, under an
    invariant of the heap that the rewriting keeps. *)

Section Visit.

Variable cells : list (list (option nat)).
Variable body : Z → Z → option nat → list cell → result (list cell).
Variable F : nat → nat → cell → cell.
Variable inv : list cell → Prop.
Variable good : nat → nat → Prop.

Hypothesis Hbody : ∀ h x y l c,
  inv h → separate cells h → good x y →
  ptr_at cells x y = Some (Some l) → h !! l = Some c →
  body (Z.of_nat x) (Z.of_nat y) (Some l) h = Ok (<[l := F x y c]> h).
Hypothesis Hinv : ∀ h x y l c,
  inv h → ptr_at cells x y = Some (Some l) → h !! l = Some c →
  inv (<[l := F x y c]> h).

Lemma visit_updated order :
  NoDup order →
  (∀ x y, (x, y) ∈ order → is_Some (ptr_at cells x y)) →
  (∀ x y, (x, y) ∈ order → good x y) →
  ∀ h, inv h → separate cells h →
  ∃ h', visit cells body order h = Ok h' ∧ updated cells F order h h' ∧
        inv h'.
Proof.
  induction order as [|[x y] order IH]; intros Hnd Hvalid Hgood h Hi Hsep.
  { exists h. split; [done|]. split; [|done]. split; [done|].
    split; [|done]. by intros ??? ?%elem_of_nil. }
  assert (Hg : good x y) by (apply Hgood; by left).
  apply NoDup_cons in Hnd as [Hnotin Hnd].
  destruct (Hvalid x y) as [p Hp]; [by left|].
  destruct (separate_ptr_at _ _ _ _ _ Hsep Hp) as (l & c & -> & Hc).
  pose proof Hp as Hp'. apply ptr_at_Some in Hp' as (row & Hrow & Hrp).
  rewrite visit_cons, (index_lookup _ _ _ Hrow). simpl.
  rewrite (index_lookup _ _ _ Hrp). simpl.
  rewrite (Hbody h x y l c Hi Hsep Hg Hp Hc). simpl.
  set (h1 := <[l := F x y c]> h).
  assert (Hlen1 : length h1 = length h) by apply length_insert.
  destruct (IH Hnd) with (h := h1) as (h' & Hrun & (Hlen & Hin & Hout) & Hi').
  { intros x' y' Hxy. apply Hvalid. by right. }
  { intros x' y' Hxy. apply Hgood. by right. }
  { by eapply Hinv. }
  { by eapply separate_length. }
  exists h'. split; [done|]. split; [|done].
  destruct Hsep as [Hnodup _].
  split; [congruence|]. split.
  - intros x' y' l' [[= -> ->]|Hxy]%elem_of_cons Hl'.
    + assert (l' = l) as -> by congruence.
      rewrite Hout.
      * unfold h1. rewrite list_lookup_insert_eq, Hc; [done|].
        eapply lookup_lt_Some, Hc.
      * intros x' y' Hxy Hl. apply Hnotin.
        by destruct (ptr_at_inj _ _ _ _ _ _ Hnodup Hp Hl) as [-> ->].
    + rewrite (Hin _ _ _ Hxy Hl'). unfold h1.
      rewrite list_lookup_insert_ne; [done|]. intros ->. apply Hnotin.
      by destruct (ptr_at_inj _ _ _ _ _ _ Hnodup Hp Hl') as [-> ->].
  - intros l' Hl'. rewrite Hout.
    + unfold h1. rewrite list_lookup_insert_ne; [done|]. intros ->.
      eapply Hl'; [by left | done].
    + intros x' y' Hxy. apply Hl'. by right.
Qed.

End Visit.

(** The outcome of a pass is determined by the set of visited positions. *)
Lemma updated_unique cells F order1 order2 h h1 h2 :
  (∀ p, p ∈ order1 ↔ p ∈ order2) →
  updated cells F order1 h h1 → updated cells F order2 h h2 → h1 = h2.
Proof.
  intros Hsame (Hlen1 & Hin1 & Hout1) (Hlen2 & Hin2 & Hout2).
  apply list_eq. intros l.
  destruct (decide (Exists (λ p, ptr_at cells p.1 p.2 = Some (Some l)) order1))
    as [Hex|Hnex].
  - apply Exists_exists in Hex as ([x y] & Hxy & Hl). simpl in Hl.
    rewrite (Hin1 _ _ _ Hxy Hl). apply Hsame in Hxy.
    by rewrite (Hin2 _ _ _ Hxy Hl).
  - rewrite Exists_exists in Hnex. rewrite Hout1, Hout2; [done| |].
    + intros x y Hxy Hl. apply Hnex. exists (x, y). by rewrite Hsame.
    + intros x y Hxy Hl. apply Hnex. by exists (x, y).
Qed.

(** * The two passes of [getNextState] *)

Lemma same_alive_refl h : same_alive h h.
Proof. by intros l. Qed.

Lemma same_alive_insert h0 h l c b :
  same_alive h0 h → h !! l = Some c →
  same_alive h0 (<[l := set_aliveNext b c]> h).
Proof.
  intros Hsame Hc l'. rewrite (Hsame l').
  destruct (decide (l = l')) as [<-|Hne].
  - rewrite list_lookup_insert_eq by (eapply lookup_lt_Some, Hc).
    by rewrite Hc.
  - by rewrite list_lookup_insert_ne.
Qed.

Lemma wf_length cells h h' :
  length h' = length h → wf cells h → wf cells h'.
Proof. intros Hlen [Hshape Hsep]. split; [done|]. by eapply separate_length. Qed.

Lemma returns_Ok {A : Type} (r : result A) : returns r ↔ ∃ a, r = Ok a.
Proof.
  destruct r as [a|p]; simpl.
  - split; eauto.
  - split; [done | by intros [? ?]].
Qed.

Lemma neighbors_returns h cells x y :
  returns (aliveNeighbors h cells (Z.of_nat x) (Z.of_nat y)) →
  aliveNeighbors h cells (Z.of_nat x) (Z.of_nat y) = Ok (neighbors h cells x y).
Proof. unfold neighbors. by destruct (aliveNeighbors _ _ _ _). Qed.

Lemma neighbors_Ok h cells x y :
  wf cells h →
  aliveNeighbors h cells (Z.of_nat x) (Z.of_nat y) = Ok (neighbors h cells x y).
Proof.
  intros Hwf. unfold neighbors. by rewrite (aliveNeighbors_sum _ _ _ _ Hwf).
Qed.

Lemma wf_returns h cells x y :
  wf cells h → returns (aliveNeighbors h cells (Z.of_nat x) (Z.of_nat y)).
Proof. intros Hwf. by rewrite neighbors_Ok. Qed.

(** The first pass, in any order without repetition, over cells whose
    neighbours can be counted: every visited cell gets its decision,
    computed from the heap before the pass. *)
Lemma pass1_updated cells h order :
  separate cells h → NoDup order →
  (∀ x y, (x, y) ∈ order → is_Some (ptr_at cells x y)) →
  (∀ x y, (x, y) ∈ order →
          returns (aliveNeighbors h cells (Z.of_nat x) (Z.of_nat y))) →
  ∃ h1, visit cells (decide_cell cells) order h = Ok h1 ∧
        updated cells (decided h cells) order h h1 ∧ same_alive h h1.
Proof.
  intros Hsep Hnd Hvalid Hgood.
  apply (visit_updated cells (decide_cell cells) (decided h cells)
           (same_alive h)
           (λ x y, returns (aliveNeighbors h cells (Z.of_nat x) (Z.of_nat y))));
    auto using same_alive_refl.
  - intros h' x y l c Hsame _ Hret Hp Hc. apply decide_cell_Ok; [|done].
    rewrite <- (aliveNeighbors_same_alive h h') by done.
    by apply neighbors_returns.
  - intros h' x y l c Hsame Hp Hc. by apply same_alive_insert.
Qed.

(** The second pass, in any order without repetition. *)
Lemma pass2_updated cells h order :
  separate cells h → NoDup order →
  (∀ x y, (x, y) ∈ order → is_Some (ptr_at cells x y)) →
  ∃ h2, visit cells (λ _ _, commit_cell) order h = Ok h2 ∧
        updated cells (λ _ _, committed) order h h2.
Proof.
  intros Hsep Hnd Hvalid.
  destruct (visit_updated cells (λ _ _, commit_cell) (λ _ _, committed)
              (λ _, True) (λ _ _, True)) with (order := order) (h := h)
    as (h2 & Hrun & Hupd & _); eauto.
  intros h' x y l c _ _ _ _ Hc. by apply commit_cell_Ok.
Qed.

Lemma updated_length cells F order h h' :
  updated cells F order h h' → length h' = length h.
Proof. by intros [? _]. Qed.

Lemma getNextState_in_updated cells h order1 order2 :
  separate cells h → NoDup order1 → NoDup order2 →
  (∀ x y, (x, y) ∈ order1 → is_Some (ptr_at cells x y)) →
  (∀ x y, (x, y) ∈ order2 → is_Some (ptr_at cells x y)) →
  (∀ x y, (x, y) ∈ order1 →
          returns (aliveNeighbors h cells (Z.of_nat x) (Z.of_nat y))) →
  ∃ h1 h2, getNextState_in cells order1 order2 h = Ok h2 ∧
           updated cells (decided h cells) order1 h h1 ∧
           updated cells (λ _ _, committed) order2 h1 h2.
Proof.
  intros Hsep Hnd1 Hnd2 Hv1 Hv2 Hgood.
  destruct (pass1_updated cells h order1) as (h1 & Hrun1 & Hupd1 & _); auto.
  destruct (pass2_updated cells h1 order2) as (h2 & Hrun2 & Hupd2); auto.
  { eapply separate_length; [|done]. by eapply updated_length. }
  exists h1, h2. unfold getNextState_in. rewrite Hrun1. simpl. auto.
Qed.

Lemma positions_valid cells x y :
  (x, y) ∈ positions cells → is_Some (ptr_at cells x y).
Proof. apply elem_of_positions. Qed.

(** [getNextState] on a well-formed grid: it returns, every cell of the
    grid is rewritten by [decided] and then [committed], and the rest of
    the heap is left alone. *)
Lemma getNextState_wf cells h :
  wf cells h →
  ∃ h', getNextState cells h = Ok h' ∧ length h' = length h ∧
    (∀ x y l c, ptr_at cells x y = Some (Some l) → h !! l = Some c →
                h' !! l = Some (committed (decided h cells x y c))) ∧
    (∀ l, Some l ∉ mjoin cells → h' !! l = h !! l).
Proof.
  intros Hwf. rewrite getNextState_visit.
  destruct (getNextState_in_updated cells h (positions cells) (positions cells))
    as (h1 & h2 & Hrun & (Hlen1 & Hin1 & Hout1) & (Hlen2 & Hin2 & Hout2));
    auto using NoDup_positions, positions_valid, wf_returns.
  { by destruct Hwf. }
  exists h2. split; [done|]. split; [congruence|]. split.
  - intros x y l c Hp Hc.
    assert (Hxy : (x, y) ∈ positions cells) by (apply elem_of_positions; eauto).
    by rewrite (Hin2 _ _ _ Hxy Hp), (Hin1 _ _ _ Hxy Hp), Hc.
  - intros l Hl. rewrite Hout2, Hout1; [done| |].
    + intros x y _ Hp. apply Hl. by eapply ptr_at_elem_of.
    + intros x y _ Hp. apply Hl. by eapply ptr_at_elem_of.
Qed.

(** Where every count returns, the order of the cells within a pass does
    not matter. *)
Lemma getNextState_in_order cells h order1 order2 order1' order2' :
  separate cells h →
  NoDup order1 → NoDup order2 → NoDup order1' → NoDup order2' →
  (∀ x y, (x, y) ∈ order1 → is_Some (ptr_at cells x y)) →
  (∀ x y, (x, y) ∈ order2 → is_Some (ptr_at cells x y)) →
  (∀ x y, (x, y) ∈ order1 →
          returns (aliveNeighbors h cells (Z.of_nat x) (Z.of_nat y))) →
  (∀ p, p ∈ order1 ↔ p ∈ order1') → (∀ p, p ∈ order2 ↔ p ∈ order2') →
  getNextState_in cells order1 order2 h =
  getNextState_in cells order1' order2' h.
Proof.
  intros Hsep Hnd1 Hnd2 Hnd1' Hnd2' Hv1 Hv2 Hgood Hs1 Hs2.
  destruct (getNextState_in_updated cells h order1 order2)
    as (h1 & h2 & Hrun & Hupd1 & Hupd2); auto.
  destruct (getNextState_in_updated cells h order1' order2')
    as (h1' & h2' & Hrun' & Hupd1' & Hupd2'); auto.
  { intros x y Hxy. apply Hv1. by apply Hs1. }
  { intros x y Hxy. apply Hv2. by apply Hs2. }
  { intros x y Hxy. apply Hgood. by apply Hs1. }
  rewrite Hrun, Hrun'. f_equal.
  assert (h1 = h1') as <-
    by exact (updated_unique _ _ _ _ _ _ _ Hs1 Hupd1 Hupd1').
  exact (updated_unique _ _ _ _ _ _ _ Hs2 Hupd2 Hupd2').
Qed.

(** * Panics

    The cells of the grid being allocated, the only panic of the first
    pass is an index out of range in [aliveNeighbors]; a pass that comes
    across a cell whose neighbours cannot be counted panics, in whatever
    order it takes the cells. *)

Lemma foldM_Panic_inv {A St : Type} (body : A → St → result St) l s p :
  foldM body l s = Panic p → ∃ a s', a ∈ l ∧ body a s' = Panic p.
Proof.
  revert s. induction l as [|a l IH]; intros s; simpl; [done|].
  destruct (body a s) as [s1|q] eqn:Hbody; simpl.
  - intros (b & s' & Hb & Hp)%IH. exists b, s'. split; [by right | done].
  - intros [= ->]. exists a, s. split; [by left | done].
Qed.

Lemma index_Panic {A : Type} (s : list A) i p :
  index s i = Panic p → p = IndexOutOfRange.
Proof.
  unfold index. destruct (i <? 0); [congruence|].
  destruct (s !! Z.to_nat i); congruence.
Qed.

Lemma cell_at_Panic h cells i j p :
  separate cells h → cell_at h cells i j = Panic p → p = IndexOutOfRange.
Proof.
  intros [_ Hall]. unfold cell_at.
  destruct (index cells i) as [row|q] eqn:Hrow; simpl;
    [|intros [= <-]; by eapply index_Panic].
  destruct (index row j) as [ptr|q] eqn:Hp; simpl;
    [|intros [= <-]; by eapply index_Panic].
  apply index_Ok_inv in Hrow as [_ Hrow]. apply index_Ok_inv in Hp as [_ Hp].
  rewrite Forall_forall in Hall. destruct (Hall ptr) as [c Hc].
  { apply list_elem_of_join. exists row.
    split; eapply list_elem_of_lookup_2; eauto. }
  unfold load. by rewrite Hc.
Qed.

Lemma aliveNeighbors_Panic h cells x y p :
  separate cells h → aliveNeighbors h cells x y = Panic p →
  p = IndexOutOfRange.
Proof.
  intros Hsep. unfold aliveNeighbors, for_lt.
  intros (i & c & _ & Hinner)%foldM_Panic_inv.
  apply foldM_Panic_inv in Hinner as (j & d & _ & Hbody).
  destruct (skip x y i j); [done|]. unfold alive_at in Hbody.
  destruct (cell_at h cells i j) as [cv|q] eqn:Hc; simpl in Hbody.
  - by destruct (alive cv).
  - injection Hbody as <-. by eapply cell_at_Panic.
Qed.

Lemma visit_decide_Panic cells h0 order x y :
  (∀ x y, (x, y) ∈ order → is_Some (ptr_at cells x y)) →
  (x, y) ∈ order →
  ¬ returns (aliveNeighbors h0 cells (Z.of_nat x) (Z.of_nat y)) →
  ∀ h, separate cells h → same_alive h0 h →
  visit cells (decide_cell cells) order h = Panic IndexOutOfRange.
Proof.
  intros Hvalid Hxy Hbad.
  induction order as [|[x' y'] order IH]; intros h Hsep Hsame.
  { by apply elem_of_nil in Hxy. }
  destruct (Hvalid x' y') as [p Hp]; [by left|].
  destruct (separate_ptr_at _ _ _ _ _ Hsep Hp) as (l & c & -> & Hc).
  pose proof Hp as (row & Hrow & Hrp)%ptr_at_Some.
  rewrite visit_cons, (index_lookup _ _ _ Hrow). simpl.
  rewrite (index_lookup _ _ _ Hrp). simpl.
  destruct (aliveNeighbors h cells (Z.of_nat x') (Z.of_nat y')) as [n|q] eqn:Hn.
  - rewrite (decide_cell_Ok _ _ _ _ _ _ _ Hn Hc). simpl.
    apply elem_of_cons in Hxy as [[= -> ->]|Hxy].
    { exfalso. apply Hbad.
      by rewrite (aliveNeighbors_same_alive h0 h), Hn. }
    apply IH; auto.
    + intros x'' y'' Hin. apply Hvalid. by right.
    + eapply separate_length; [apply length_insert | done].
    + by apply same_alive_insert.
  - unfold decide_cell. rewrite Hn. simpl.
    by rewrite (aliveNeighbors_Panic _ _ _ _ _ Hsep Hn).
Qed.

Lemma getNextState_in_Panic cells h order1 order2 x y :
  separate cells h →
  (∀ x y, (x, y) ∈ order1 → is_Some (ptr_at cells x y)) →
  (x, y) ∈ order1 →
  ¬ returns (aliveNeighbors h cells (Z.of_nat x) (Z.of_nat y)) →
  getNextState_in cells order1 order2 h = Panic IndexOutOfRange.
Proof.
  intros Hsep Hvalid Hxy Hbad. unfold getNextState_in.
  by rewrite (visit_decide_Panic cells h order1 x y)
    by auto using same_alive_refl.
Qed.

(** The first pass never changes an [alive] field. *)
Lemma store_same_alive h p b h' :
  store h p (set_aliveNext b) = Ok h' → same_alive h h'.
Proof.
  unfold store. destruct p as [l|]; [|done].
  destruct (h !! l) as [c|] eqn:Hc; [|done]. intros [= <-].
  by apply same_alive_insert; [apply same_alive_refl|].
Qed.

Lemma decide_cell_same_alive cells x y c h h' :
  decide_cell cells x y c h = Ok h' → same_alive h h'.
Proof.
  unfold decide_cell. intros Hrun.
  apply bind_Ok_inv in Hrun as (n & _ & Hrun).
  apply bind_Ok_inv in Hrun as (cv & _ & Hrun).
  destruct (negb (alive cv) && (n =? 3)); [by eapply store_same_alive|].
  destruct (negb (alive cv)); [injection Hrun as <-; apply same_alive_refl|].
  destruct (alive cv && ((n <? 2) || (n >? 3))); by eapply store_same_alive.
Qed.

Lemma visit_decide_same_alive cells order h h' :
  visit cells (decide_cell cells) order h = Ok h' → same_alive h h'.
Proof.
  unfold visit. apply (foldM_preserves same_alive); auto using same_alive_refl.
  { intros h1 h2 h3 H12 H23 l. by rewrite (H12 l). }
  intros [x y] s s' _ Hrun.
  apply bind_Ok_inv in Hrun as (row & _ & Hrun).
  apply bind_Ok_inv in Hrun as (c & _ & Hrun).
  by eapply decide_cell_same_alive.
Qed.

(** * Initialisation *)

(** [makeCells] cannot panic and returns the closed form, whatever the
    random source and the graphics library return.  The two sides are
    evaluated: the loops run over the constants [rows] and [columns]. *)
Lemma makeCells_eq Intn2 makeVao :
  makeCells Intn2 makeVao =
  Ok (initial_grid, (initial_heap Intn2 makeVao, Z.to_nat (rows * columns))).
Proof. vm_compute. reflexivity. Qed.

Lemma shape_ok_initial_grid : shape_ok initial_grid.
Proof.
  split; [reflexivity|].
  apply Forall_fmap, Forall_seq. intros i _. reflexivity.
Qed.

Lemma mjoin_initial_grid :
  mjoin initial_grid = Some <$> seq 0 (Z.to_nat (rows * columns)).
Proof. vm_compute. reflexivity. Qed.

Lemma wf_initial_grid h :
  length h = Z.to_nat (rows * columns) → wf initial_grid h.
Proof.
  intros Hlen. split; [apply shape_ok_initial_grid|]. split.
  - rewrite mjoin_initial_grid. apply NoDup_fmap_2; [|apply NoDup_seq].
    by intros ?? [= ->].
  - rewrite mjoin_initial_grid. apply Forall_fmap, Forall_seq.
    intros k Hk. simpl. apply lookup_lt_is_Some_2. lia.
Qed.

Lemma length_initial_heap Intn2 makeVao :
  length (initial_heap Intn2 makeVao) = Z.to_nat (rows * columns).
Proof. unfold initial_heap. by rewrite length_fmap, length_seq. Qed.

Lemma ptr_at_initial_grid i j :
  (i < Z.to_nat rows)%nat → (j < Z.to_nat columns)%nat →
  ptr_at initial_grid i j = Some (Some (i * Z.to_nat columns + j)%nat).
Proof.
  intros Hi Hj. apply ptr_at_Some.
  exists ((λ j, Some (i * Z.to_nat columns + j)%nat)
            <$> seq 0 (Z.to_nat columns)).
  split.
  - unfold initial_grid. by rewrite list_lookup_fmap, lookup_seq_lt.
  - by rewrite list_lookup_fmap, lookup_seq_lt.
Qed.

Lemma lookup_initial_heap Intn2 makeVao i j :
  (i < Z.to_nat rows)%nat → (j < Z.to_nat columns)%nat →
  initial_heap Intn2 makeVao !! (i * Z.to_nat columns + j)%nat =
  Some {| drawable := makeVao (i * Z.to_nat columns + j)%nat;
          alive := Intn2 (i * Z.to_nat columns + j)%nat =? 1;
          aliveNext := false;
          x := Z.of_nat i;
          y := Z.of_nat j |}.
Proof.
  intros Hi Hj. unfold initial_heap.
  change (Z.to_nat columns) with 30%nat in *.
  change (Z.to_nat rows) with 30%nat in *.
  change (Z.to_nat (rows * columns)) with 900%nat.
  rewrite list_lookup_fmap, lookup_seq_lt by lia.
  rewrite Nat.add_0_l. unfold fmap, option_fmap, option_map.
  replace ((i * 30 + j) / 30)%nat with i
    by (apply Nat.div_unique with j; lia).
  replace ((i * 30 + j) `mod` 30)%nat with j
    by (apply Nat.mod_unique with i; lia).
  done.
Qed.

(** * Running the model

    In the sample run the cells of the odd columns are alive. *)

Example aliveNeighbors_demo_corner :
  aliveNeighbors demo_heap initial_grid 0 0 = Ok 2.
Proof. vm_compute. reflexivity. Qed.

Example aliveNeighbors_demo_inner :
  aliveNeighbors demo_heap initial_grid 1 2 = Ok 6.
Proof. vm_compute. reflexivity. Qed.

Example aliveNeighbors_demo_edge :
  aliveNeighbors demo_heap initial_grid 29 2 = Ok 4.
Proof. vm_compute. reflexivity. Qed.

(** At the upper end of [int] the bound [x+2] wraps around and the loop
    body never runs. *)
Example aliveNeighbors_max_int :
  aliveNeighbors demo_heap initial_grid (2 ^ 63 - 1) 0 = Ok 0.
Proof. vm_compute. reflexivity. Qed.

(** The guard of [aliveNeighbors] compares with the constants [columns]
    and [rows], not with the lengths of the slices: on a smaller grid the
    access [cells[3]] is attempted and panics. *)
Example getNextState_small_grid :
  getNextState small_grid small_heap = Panic IndexOutOfRange.
Proof. vm_compute. reflexivity. Qed.

(** * Reachable states *)

Lemma reachable_wf cells h : reachable cells h → wf cells h.
Proof.
  induction 1 as [Intn2 makeVao cells h k Hmake | cells h h' _ IH Hstep].
  - rewrite makeCells_eq in Hmake. injection Hmake as <- <- _.
    apply wf_initial_grid, length_initial_heap.
  - destruct (getNextState_wf cells h IH) as (h'' & Hrun & Hlen & _).
    assert (h'' = h') as -> by congruence.
    by eapply wf_length.
Qed.

Lemma reachable_grid cells h : reachable cells h → cells = initial_grid.
Proof.
  induction 1 as [Intn2 makeVao cells h k Hmake | cells h h' _ IH Hstep].
  - rewrite makeCells_eq in Hmake. by injection Hmake as <- _ _.
  - done.
Qed.

(** Between two calls of [getNextState] no cell of the grid is dead with
    a pending [aliveNext]. *)
Lemma reachable_clean cells h x y l c :
  reachable cells h → ptr_at cells x y = Some (Some l) → h !! l = Some c →
  alive c = false → aliveNext c = false.
Proof.
  intros Hreach. revert x y l c.
  induction Hreach as [Intn2 makeVao cells h k Hmake | cells h h' Hreach IH Hstep];
    intros x y l c Hp Hc Hdead.
  - rewrite makeCells_eq in Hmake. injection Hmake as <- <- _.
    unfold initial_heap in Hc. apply list_lookup_fmap_Some in Hc as (k' & -> & _).
    done.
  - destruct (getNextState_wf cells h (reachable_wf _ _ Hreach))
      as (h'' & Hrun & Hlen & Hin & _).
    assert (h'' = h') as -> by congruence.
    destruct (separate_ptr_at cells h x y _ (proj2 (reachable_wf _ _ Hreach)) Hp)
      as (l' & c0 & [= <-] & Hc0).
    rewrite (Hin _ _ _ _ Hp Hc0) in Hc. injection Hc as <-.
    simpl in *. done.
Qed.

(** * The transition rule *)

Lemma cell_at_lookup h cells i j l c :
  0 ≤ i → 0 ≤ j →
  ptr_at cells (Z.to_nat i) (Z.to_nat j) = Some (Some l) → h !! l = Some c →
  cell_at h cells i j = Ok c.
Proof.
  intros Hi Hj Hp Hc.
  rewrite <- (Z2Nat.id i Hi), <- (Z2Nat.id j Hj) at 1.
  rewrite (cell_at_ptr _ _ _ _ _ Hp). by apply load_Ok.
Qed.

Lemma neighbors_eq h cells i j n :
  0 ≤ i → 0 ≤ j → aliveNeighbors h cells i j = Ok n →
  neighbors h cells (Z.to_nat i) (Z.to_nat j) = n.
Proof.
  intros Hi Hj Hn. unfold neighbors. by rewrite !Z2Nat.id, Hn by done.
Qed.

(** With no pending [aliveNext] on a dead cell, the [switch] computes the
    decision table. *)
Lemma next_state_clean c n :
  (alive c = false → aliveNext c = false) →
  next_state c n = B3S23 (alive c) n.
Proof.
  intros Hclean. unfold next_state, B3S23.
  destruct (alive c); simpl.
  - destruct (Z.ltb_spec n 2), (Z.gtb_spec n 3), (Z.eqb_spec n 2),
      (Z.eqb_spec n 3); simpl; lia || done.
  - rewrite Hclean by done. by destruct (n =? 3).
Qed.

Lemma reachable_demo : reachable initial_grid demo_heap.
Proof. eapply reachable_init, makeCells_eq. Qed.

(** C1. For every grid reachable at a point between two calls of
    [getNextState], the call returns, and the new [alive] value of every
    cell is the B3/S23 decision table applied to its old [alive] value and
    its old live-neighbour count: a dead cell with exactly three live
    neighbours becomes alive, a dead cell with another count stays dead, a
    live cell with fewer than two or more than three dies, and a live cell
    with two or three survives. *)
Theorem getNextState_decision_table cells h :
  reachable cells h →
  ∃ h', getNextState cells h = Ok h' ∧
    ∀ i j c n,
      cell_at h cells i j = Ok c → aliveNeighbors h cells i j = Ok n →
      ∃ c', cell_at h' cells i j = Ok c' ∧
        alive c' = B3S23 (alive c) n ∧
        (alive c = false → n = 3 → alive c' = true) ∧
        (alive c = false → n ≠ 3 → alive c' = false) ∧
        (alive c = true → n < 2 ∨ n > 3 → alive c' = false) ∧
        (alive c = true → n = 2 ∨ n = 3 → alive c' = true).
Proof.
  intros Hreach. pose proof (reachable_wf _ _ Hreach) as Hwf.
  destruct (getNextState_wf cells h Hwf) as (h' & Hrun & _ & Hin & _).
  exists h'. split; [done|]. intros i j c n Hc Hn.
  apply cell_at_Ok_inv in Hc as (Hi & Hj & l & Hp & Hl).
  exists (committed (decided h cells (Z.to_nat i) (Z.to_nat j) c)).
  split; [by eapply cell_at_lookup, Hin|].
  assert (Hnew : alive (committed (decided h cells (Z.to_nat i) (Z.to_nat j) c))
                 = B3S23 (alive c) n).
  { simpl. rewrite (neighbors_eq _ _ _ _ _ Hi Hj Hn).
    apply next_state_clean. by eapply reachable_clean. }
  rewrite Hnew. split; [done|]. unfold B3S23.
  repeat split; intros ->; simpl.
  - by intros ->.
  - intros Hne. by apply Z.eqb_neq.
  - intros Hn'. apply orb_false_iff. split; apply Z.eqb_neq; lia.
  - intros [-> | ->]; done.
Qed.

Lemma getNextState_decision_table_witness :
  reachable initial_grid demo_heap ∧
  ∃ h', getNextState initial_grid demo_heap = Ok h' ∧
    ∀ i j c n,
      cell_at demo_heap initial_grid i j = Ok c →
      aliveNeighbors demo_heap initial_grid i j = Ok n →
      ∃ c', cell_at h' initial_grid i j = Ok c' ∧
        alive c' = B3S23 (alive c) n ∧
        (alive c = false → n = 3 → alive c' = true) ∧
        (alive c = false → n ≠ 3 → alive c' = false) ∧
        (alive c = true → n < 2 ∨ n > 3 → alive c' = false) ∧
        (alive c = true → n = 2 ∨ n = 3 → alive c' = true).
Proof.
  split; [apply reachable_demo|].
  apply (getNextState_decision_table initial_grid demo_heap), reachable_demo.
Defined.

(** * Order independence *)

Lemma Permutation_positions cells order :
  order ≡ₚ positions cells →
  NoDup order ∧ (∀ p, p ∈ order ↔ p ∈ positions cells) ∧
  (∀ x y, (x, y) ∈ order → is_Some (ptr_at cells x y)).
Proof.
  intros Hperm. split; [|split].
  - rewrite Hperm. apply NoDup_positions.
  - intros p. by rewrite Hperm.
  - intros x y Hxy. apply positions_valid. by rewrite <- Hperm.
Qed.

Lemma wf_demo : wf initial_grid demo_heap.
Proof. apply wf_initial_grid, length_initial_heap. Qed.

(** C2. [getNextState] is order-independent.  On every grid (of pairwise
    distinct allocated cells, of any dimensions), taking the cells of the
    first pass in any permutation of the row-major order, and those of the
    second pass in any permutation, gives the result that [getNextState]
    gives: the same heap, which is returned on every grid of [rows] by
    [columns] cells, or the same panic.  And at whatever point of the
    first pass a cell is processed, the neighbour count used for it is the
    one computed from the [alive] values before the pass. *)
Theorem getNextState_order_independent cells h order1 order2 :
  separate cells h →
  order1 ≡ₚ positions cells → order2 ≡ₚ positions cells →
  getNextState_in cells order1 order2 h = getNextState cells h ∧
  (shape_ok cells → returns (getNextState cells h)) ∧
  (∀ done_ x y todo h_mid,
     order1 = done_ ++ (x, y) :: todo →
     visit cells (decide_cell cells) done_ h = Ok h_mid →
     aliveNeighbors h_mid cells (Z.of_nat x) (Z.of_nat y) =
     aliveNeighbors h cells (Z.of_nat x) (Z.of_nat y)).
Proof.
  intros Hsep Hperm1 Hperm2.
  destruct (Permutation_positions _ _ Hperm1) as (Hnd1 & Hs1 & Hv1).
  destruct (Permutation_positions _ _ Hperm2) as (Hnd2 & Hs2 & Hv2).
  split; [|split].
  - rewrite getNextState_visit.
    destruct (decide (Forall
      (λ p, returns (aliveNeighbors h cells (Z.of_nat p.1) (Z.of_nat p.2)))
      (positions cells))) as [Hall|Hnot].
    + rewrite Forall_forall in Hall.
      apply getNextState_in_order; auto using NoDup_positions.
      intros x y Hxy. apply (Hall (x, y)). by apply Hs1.
    + apply not_Forall_Exists in Hnot; [|apply _].
      apply Exists_exists in Hnot as ([x y] & Hxy & Hbad). simpl in Hbad.
      rewrite (getNextState_in_Panic cells h order1 order2 x y); auto.
      * symmetry. apply (getNextState_in_Panic cells h _ _ x y);
          auto using positions_valid.
      * by apply Hs1.
  - intros Hshape.
    destruct (getNextState_wf cells h) as (h' & -> & _); done.
  - intros done_ x y todo h_mid -> Hrun. symmetry.
    by eapply aliveNeighbors_same_alive, visit_decide_same_alive.
Qed.

Lemma getNextState_order_independent_witness :
  separate initial_grid demo_heap ∧
  reverse (positions initial_grid) ≡ₚ positions initial_grid ∧
  getNextState_in initial_grid (reverse (positions initial_grid))
    (reverse (positions initial_grid)) demo_heap =
  getNextState initial_grid demo_heap ∧
  returns (getNextState initial_grid demo_heap).
Proof.
  split; [apply wf_demo|]. split; [apply reverse_Permutation|].
  destruct (getNextState_order_independent initial_grid demo_heap
              (reverse (positions initial_grid))
              (reverse (positions initial_grid)))
    as (Heq & Hret & _);
    [apply wf_demo | apply reverse_Permutation..|].
  split; [exact Heq | apply Hret, shape_ok_initial_grid].
Defined.

(** * The neighbourhood *)

(** C3. [aliveNeighbors] does not wrap around.  For every cell [(x, y)] of
    the grid it returns the number of live cells among the Moore
    neighbours of [(x, y)] whose column index is in [[0, C)] and whose row
    index is in [[0, R)]; the offsets outside are skipped.  So the result
    is in [[0, 8]], at most 3 for a corner cell and at most 5 for a cell on
    an edge, and it is the same in every heap that agrees on the [alive]
    fields of the neighbours in the grid: no cell further away, such as
    [(C-1, R-1)] for the corner [(0, 0)], affects it. *)
Theorem aliveNeighbors_boundary cells h x y :
  wf cells h → 0 ≤ x < columns → 0 ≤ y < rows →
  ∃ n, aliveNeighbors h cells x y = Ok n ∧
    n = Z.of_nat (length (live_neighbors h cells x y)) ∧
    0 ≤ n ≤ 8 ∧
    ((x = 0 ∨ x = columns - 1) ∧ (y = 0 ∨ y = rows - 1) → n ≤ 3) ∧
    (x = 0 ∨ x = columns - 1 ∨ y = 0 ∨ y = rows - 1 → n ≤ 5) ∧
    (∀ h',
       (∀ i j, 0 ≤ i < columns → 0 ≤ j < rows →
               x - 1 ≤ i ≤ x + 1 → y - 1 ≤ j ≤ y + 1 → ¬ (i = x ∧ j = y) →
               alive_at h' cells i j = alive_at h cells i j) →
       aliveNeighbors h' cells x y = Ok n).
Proof.
  intros Hwf Hx Hy. eexists. split; [by apply aliveNeighbors_moore|].
  split; [done|].
  pose proof (live_neighbors_candidates h cells x y) as Hle.
  split; [|split; [|split]].
  - pose proof (candidates_le_8 x y). lia.
  - intros [Hxc Hyc]. pose proof (candidates_corner x y Hxc Hyc). lia.
  - intros Hedge. pose proof (candidates_edge x y Hx Hy Hedge). lia.
  - intros h' Hsame. rewrite <- (aliveNeighbors_moore h cells x y) by done.
    apply aliveNeighbors_candidates; [done..|].
    intros i j [Hm Hg]%elem_of_candidates.
    apply elem_of_moore in Hm. apply in_grid_true in Hg.
    apply Hsame; lia.
Qed.

Lemma aliveNeighbors_boundary_witness :
  wf initial_grid demo_heap ∧
  ∃ n, aliveNeighbors demo_heap initial_grid 0 0 = Ok n ∧
    n = Z.of_nat (length (live_neighbors demo_heap initial_grid 0 0)) ∧
    0 ≤ n ≤ 8 ∧
    ((0 = 0 ∨ 0 = columns - 1) ∧ (0 = 0 ∨ 0 = rows - 1) → n ≤ 3) ∧
    (0 = 0 ∨ 0 = columns - 1 ∨ 0 = 0 ∨ 0 = rows - 1 → n ≤ 5) ∧
    (∀ h',
       (∀ i j, 0 ≤ i < columns → 0 ≤ j < rows →
               0 - 1 ≤ i ≤ 0 + 1 → 0 - 1 ≤ j ≤ 0 + 1 → ¬ (i = 0 ∧ j = 0) →
               alive_at h' initial_grid i j = alive_at demo_heap initial_grid i j) →
       aliveNeighbors h' initial_grid 0 0 = Ok n).
Proof.
  split; [apply wf_demo|].
  apply (aliveNeighbors_boundary initial_grid demo_heap 0 0);
    [apply wf_demo | unfold columns; lia | unfold rows; lia].
Defined.

(** C8. [aliveNeighbors] excludes the centre.  For every in-bounds
    [(x, y)] the result is determined by the [alive] fields of the cells
    of the Moore neighbourhood, the 3×3 block around [(x, y)] without
    [(x, y)] itself; in particular, changing the [alive] field of the cell
    at [(x, y)] does not change the result. *)
Theorem aliveNeighbors_excludes_center cells h x y :
  separate cells h → 0 ≤ x < columns → 0 ≤ y < rows →
  (∀ h',
     (∀ i j, (i, j) ∈ moore x y →
             alive_at h' cells i j = alive_at h cells i j) →
     aliveNeighbors h' cells x y = aliveNeighbors h cells x y) ∧
  (∀ l c b,
     ptr_at cells (Z.to_nat x) (Z.to_nat y) = Some (Some l) →
     h !! l = Some c →
     aliveNeighbors (<[l := set_alive b c]> h) cells x y =
     aliveNeighbors h cells x y).
Proof.
  intros Hsep Hx Hy.
  assert (Hmoore : ∀ h',
     (∀ i j, (i, j) ∈ moore x y →
             alive_at h' cells i j = alive_at h cells i j) →
     aliveNeighbors h' cells x y = aliveNeighbors h cells x y).
  { intros h' Hsame. apply aliveNeighbors_candidates; [done..|].
    intros i j [Hm _]%elem_of_candidates. by apply Hsame. }
  split; [done|]. intros l c b Hp Hc. apply Hmoore.
  intros i j Hm. apply elem_of_moore in Hm as (_ & _ & Hne).
  unfold alive_at, cell_at.
  destruct (index cells i) as [row|] eqn:Hrow; simpl; [|done].
  destruct (index row j) as [p|] eqn:Hrp; simpl; [|done].
  apply index_Ok_inv in Hrow as [Hi Hrow]. apply index_Ok_inv in Hrp as [Hj Hrp].
  unfold load. destruct p as [l'|]; simpl; [|done].
  rewrite list_lookup_insert_ne; [done|]. intros ->.
  destruct Hsep as [Hnd _].
  destruct (ptr_at_inj cells (Z.to_nat x) (Z.to_nat y) (Z.to_nat i) (Z.to_nat j)
              (Some l') Hnd Hp) as [Hxi Hyj].
  { apply ptr_at_Some. eauto. }
  lia.
Qed.

Lemma aliveNeighbors_excludes_center_witness :
  separate initial_grid demo_heap ∧
  (∀ h',
     (∀ i j, (i, j) ∈ moore 1 1 →
             alive_at h' initial_grid i j = alive_at demo_heap initial_grid i j) →
     aliveNeighbors h' initial_grid 1 1 =
     aliveNeighbors demo_heap initial_grid 1 1) ∧
  (∀ l c b,
     ptr_at initial_grid (Z.to_nat 1) (Z.to_nat 1) = Some (Some l) →
     demo_heap !! l = Some c →
     aliveNeighbors (<[l := set_alive b c]> demo_heap) initial_grid 1 1 =
     aliveNeighbors demo_heap initial_grid 1 1).
Proof.
  split; [apply wf_demo|].
  apply (aliveNeighbors_excludes_center initial_grid demo_heap 1 1);
    [apply wf_demo | unfold columns; lia | unfold rows; lia].
Defined.

(** * Safety of the accesses *)

(** C4. For the grid that [makeCells] builds, at any point of the run,
    every element access [cells[i][j]] of [aliveNeighbors] and
    [getNextState] is in bounds: the grid has [rows] outer entries of
    [columns] cells each, every pair [(i, j)] that passes the guard of
    [aliveNeighbors] for a cell [(x, y)] of the iteration space has [i] in
    [[0, rows)] and [j] in [[0, columns)] and the access succeeds, so
    counting the neighbours of any cell and advancing the generation
    return without a panic. *)
Theorem accesses_in_bounds cells h :
  reachable cells h →
  length cells = Z.to_nat rows ∧
  Forall (λ row : list (option nat), length row = Z.to_nat columns) cells ∧
  (∀ (x y : nat) (i j : Z),
     is_Some (ptr_at cells x y) →
     Z.of_nat x - 1 ≤ i < Z.of_nat x + 2 →
     Z.of_nat y - 1 ≤ j < Z.of_nat y + 2 →
     skip (Z.of_nat x) (Z.of_nat y) i j = false →
     0 ≤ i < rows ∧ 0 ≤ j < columns ∧ ∃ c, cell_at h cells i j = Ok c) ∧
  (∀ x y : nat,
     is_Some (ptr_at cells x y) →
     ∃ n, aliveNeighbors h cells (Z.of_nat x) (Z.of_nat y) = Ok n) ∧
  ∃ h', getNextState cells h = Ok h'.
Proof.
  intros Hreach. pose proof (reachable_wf _ _ Hreach) as Hwf.
  destruct Hwf as [[Hlen Hrows] Hsep].
  split; [done|]. split; [done|]. split; [|split].
  - intros x y i j _ _ _ Hskip. apply skip_false in Hskip as (_ & Hi & Hj).
    unfold rows, columns in *. split; [lia|]. split; [lia|].
    destruct (wf_cell_at h cells i j) as (l & c & _ & _ & Hc);
      [done | done | done |]. by exists c.
  - intros x y _. eexists. by apply neighbors_Ok.
  - destruct (getNextState_wf cells h) as (h' & Hrun & _); [done|]. by exists h'.
Qed.

Lemma accesses_in_bounds_witness :
  reachable initial_grid demo_heap ∧
  length initial_grid = Z.to_nat rows ∧
  (∀ x y : nat,
     is_Some (ptr_at initial_grid x y) →
     ∃ n, aliveNeighbors demo_heap initial_grid (Z.of_nat x) (Z.of_nat y) = Ok n) ∧
  ∃ h', getNextState initial_grid demo_heap = Ok h'.
Proof.
  split; [apply reachable_demo|].
  destruct (accesses_in_bounds initial_grid demo_heap reachable_demo)
    as (Hlen & _ & _ & Hcount & Hnext).
  auto.
Defined.

(** * The invariant behind the empty branch *)

Lemma decide_cell_explicit_Ok cells h x y l c n :
  aliveNeighbors h cells x y = Ok n → h !! l = Some c →
  decide_cell_explicit cells x y (Some l) h =
  Ok (<[l := set_aliveNext (B3S23 (alive c) n) c]> h).
Proof.
  intros Hn Hc. unfold decide_cell_explicit. rewrite Hn. simpl.
  rewrite (load_Ok _ _ _ Hc). simpl. rewrite Hc.
  unfold B3S23. destruct (alive c); simpl.
  - destruct (Z.ltb_spec n 2), (Z.gtb_spec n 3), (Z.eqb_spec n 2),
      (Z.eqb_spec n 3); simpl; lia || done.
  - by destruct (n =? 3).
Qed.

Lemma pass1_explicit_updated cells h order :
  wf cells h → NoDup order →
  (∀ x y, (x, y) ∈ order → is_Some (ptr_at cells x y)) →
  ∃ h1, visit cells (decide_cell_explicit cells) order h = Ok h1 ∧
        updated cells (decided_explicit h cells) order h h1.
Proof.
  intros Hwf Hnd Hvalid.
  destruct (visit_updated cells (decide_cell_explicit cells)
              (decided_explicit h cells) (same_alive h) (λ _ _, True))
    with (order := order) (h := h) as (h1 & Hrun & Hupd & _);
    eauto using same_alive_refl.
  - intros h' x y l c Hsame Hsep _ Hp Hc.
    apply decide_cell_explicit_Ok; [|done].
    rewrite <- (aliveNeighbors_same_alive h h') by done.
    by apply neighbors_Ok.
  - intros h' x y l c Hsame Hp Hc. by apply same_alive_insert.
  - by destruct Hwf.
Qed.

(** Two passes that rewrite the cells of the grid alike give one heap. *)
Lemma updated_agree cells F F' order h h1 h2 :
  (∀ x y l c, ptr_at cells x y = Some (Some l) → h !! l = Some c →
              F x y c = F' x y c) →
  updated cells F order h h1 → updated cells F' order h h2 → h1 = h2.
Proof.
  intros Hsame (Hlen1 & Hin1 & Hout1) (Hlen2 & Hin2 & Hout2).
  apply list_eq. intros l.
  destruct (decide (Exists (λ p, ptr_at cells p.1 p.2 = Some (Some l)) order))
    as [Hex|Hnex].
  - apply Exists_exists in Hex as ([x y] & Hxy & Hl). simpl in Hl.
    rewrite (Hin1 _ _ _ Hxy Hl), (Hin2 _ _ _ Hxy Hl).
    destruct (h !! l) as [c|] eqn:Hc; simpl; [|done].
    by rewrite (Hsame x y l c).
  - rewrite Exists_exists in Hnex. rewrite Hout1, Hout2; [done| |];
      intros x y Hxy Hl; apply Hnex; by exists (x, y).
Qed.

(** C5. At entry to every call of [getNextState] of the run, every cell of
    the grid whose [alive] field is false has [aliveNext] false: [newCell]
    leaves [aliveNext] at false and the copy pass of [getNextState] leaves
    [alive] equal to [aliveNext].  Hence the empty branch of the [switch]
    does what the assignment [c.aliveNext = false] would do:
    [getNextState_explicit] returns the same heap. *)
Theorem dead_cells_are_clean cells h :
  reachable cells h →
  (∀ i j c, cell_at h cells i j = Ok c →
            alive c = false → aliveNext c = false) ∧
  (∀ h' i j c', getNextState cells h = Ok h' → cell_at h' cells i j = Ok c' →
                alive c' = aliveNext c') ∧
  (∃ h', getNextState cells h = Ok h' ∧
         getNextState_explicit cells h = Ok h').
Proof.
  intros Hreach. pose proof (reachable_wf _ _ Hreach) as Hwf.
  destruct (getNextState_wf cells h Hwf) as (h' & Hrun & Hlen & Hin & _).
  split; [|split].
  - intros i j c (_ & _ & l & Hp & Hc)%cell_at_Ok_inv.
    by eapply reachable_clean.
  - intros h'' i j c' Hrun' (_ & _ & l & Hp & Hc')%cell_at_Ok_inv.
    assert (h'' = h') as -> by congruence.
    destruct (separate_ptr_at cells h _ _ _ (proj2 Hwf) Hp)
      as (l' & c & [= <-] & Hc).
    rewrite (Hin _ _ _ _ Hp Hc) in Hc'. by injection Hc' as <-.
  - exists h'. split; [done|]. rewrite <- Hrun, getNextState_visit.
    unfold getNextState_explicit, getNextState_in. rewrite each_cell_visit.
    destruct (pass1_updated cells h (positions cells))
      as (h1 & Hrun1 & Hupd1 & _);
      auto using NoDup_positions, positions_valid, wf_returns.
    { by destruct Hwf. }
    destruct (pass1_explicit_updated cells h (positions cells))
      as (h1' & Hrun1' & Hupd1');
      auto using NoDup_positions, positions_valid.
    rewrite Hrun1, Hrun1'. simpl. rewrite each_cell_visit.
    f_equal. symmetry. eapply updated_agree; [|exact Hupd1|exact Hupd1'].
    intros x y l c Hp Hc. unfold decided, decided_explicit. f_equal.
    apply next_state_clean. by eapply reachable_clean.
Qed.

Lemma dead_cells_are_clean_witness :
  reachable initial_grid demo_heap ∧
  (∀ i j c, cell_at demo_heap initial_grid i j = Ok c →
            alive c = false → aliveNext c = false) ∧
  (∃ h', getNextState initial_grid demo_heap = Ok h' ∧
         getNextState_explicit initial_grid demo_heap = Ok h').
Proof.
  split; [apply reachable_demo|].
  destruct (dead_cells_are_clean initial_grid demo_heap reachable_demo)
    as (Hclean & _ & Hsame).
  auto.
Defined.

(** * The all-dead grid *)

Lemma all_dead_neighbors cells h x y :
  wf cells h →
  (∀ i j c, cell_at h cells i j = Ok c → alive c = false) →
  aliveNeighbors h cells x y = Ok 0.
Proof.
  intros Hwf Hdead. rewrite aliveNeighbors_sum by done. f_equal.
  assert (Hzero : ∀ (l : list Z), sumZ (λ _ : Z, 0) l = 0).
  { induction l as [|a l IH]; simpl; lia. }
  rewrite <- (Hzero (seqZ (wrap (x - 1)) (wrap (x + 2) - wrap (x - 1)))).
  apply sumZ_ext. intros i _.
  rewrite <- (Hzero (seqZ (wrap (y - 1)) (wrap (y + 2) - wrap (y - 1)))).
  apply sumZ_ext. intros j _. unfold contrib.
  destruct (skip x y i j); [done|]. unfold alive_b, alive_at.
  destruct (cell_at h cells i j) as [c|] eqn:Hc; simpl; [|done].
  by rewrite (Hdead i j c Hc).
Qed.

Lemma dead_heap_dead l c : dead_heap !! l = Some c → alive c = false.
Proof.
  unfold dead_heap, initial_heap.
  by intros (k & -> & _)%list_lookup_fmap_Some.
Qed.

Lemma dead_heap_clean l c : dead_heap !! l = Some c → aliveNext c = false.
Proof.
  unfold dead_heap, initial_heap.
  by intros (k & -> & _)%list_lookup_fmap_Some.
Qed.

Lemma wf_dead : wf initial_grid dead_heap.
Proof. apply wf_initial_grid, length_initial_heap. Qed.

Lemma wf_stale : wf initial_grid stale_heap.
Proof.
  apply wf_initial_grid. unfold stale_heap.
  rewrite length_insert. apply length_initial_heap.
Qed.

(** Running the model on [stale_heap]: the cell at address [0] ends up
    alive. *)
Lemma stale_heap_run :
  alive_after (getNextState initial_grid stale_heap) 0 = Some true.
Proof. vm_compute. reflexivity. Qed.

Lemma alive_after_true r l :
  alive_after r l = Some true →
  ∃ h' c', r = Ok h' ∧ h' !! l = Some c' ∧ alive c' = true.
Proof.
  destruct r as [h'|p]; simpl; [|done].
  destruct (h' !! l) as [c'|] eqn:Hc'; simpl; [|done].
  intros [= Ha]. by exists h', c'.
Qed.

(** C6, as stated, fails: on the all-dead grid [stale_heap], in which the
    cell at [(0, 0)] has a pending [aliveNext], [getNextState] returns a
    grid in which that cell is alive. *)
Lemma all_dead_grid_comes_alive :
  wf initial_grid stale_heap ∧
  (∀ i j c, cell_at stale_heap initial_grid i j = Ok c → alive c = false) ∧
  ∃ h' c', getNextState initial_grid stale_heap = Ok h' ∧
           cell_at h' initial_grid 0 0 = Ok c' ∧ alive c' = true.
Proof.
  split; [apply wf_stale|]. split.
  - intros i j c (_ & _ & l & _ & Hc)%cell_at_Ok_inv.
    unfold stale_heap in Hc. apply list_lookup_insert_Some in Hc.
    destruct Hc as [(_ & <- & _)|(_ & Hc)]; [done|].
    by eapply dead_heap_dead.
  - destruct (alive_after_true _ _ stale_heap_run)
      as (h' & c' & Hrun & Hc' & Ha).
    exists h', c'. split; [exact Hrun|]. split; [|exact Ha].
    apply (cell_at_lookup h' initial_grid 0 0 0%nat c');
      [lia | lia | | exact Hc'].
    apply (ptr_at_initial_grid 0 0); unfold rows, columns; lia.
Qed.

(** C6, amended.  The all-dead grid with no pending [aliveNext] is a fixed
    point: if every cell of the grid has [alive] and [aliveNext] false,
    [getNextState] returns a grid in which this is still so. *)
Theorem all_dead_fixed_point cells h :
  wf cells h →
  (∀ i j c, cell_at h cells i j = Ok c →
            alive c = false ∧ aliveNext c = false) →
  ∃ h', getNextState cells h = Ok h' ∧
        ∀ i j c', cell_at h' cells i j = Ok c' →
                  alive c' = false ∧ aliveNext c' = false.
Proof.
  intros Hwf Hdead.
  destruct (getNextState_wf cells h Hwf) as (h' & Hrun & _ & Hin & _).
  exists h'. split; [done|].
  intros i j c' (Hi & Hj & l & Hp & Hc')%cell_at_Ok_inv.
  destruct (separate_ptr_at cells h _ _ _ (proj2 Hwf) Hp)
    as (l' & c & [= <-] & Hc).
  rewrite (Hin _ _ _ _ Hp Hc) in Hc'. injection Hc' as <-.
  destruct (Hdead i j c) as [Ha Han]; [by eapply cell_at_lookup|].
  assert (Hn : neighbors h cells (Z.to_nat i) (Z.to_nat j) = 0).
  { unfold neighbors. rewrite all_dead_neighbors; [done..|].
    intros i' j' c0 Hc0. by destruct (Hdead i' j' c0). }
  simpl. rewrite Hn. unfold next_state. rewrite Ha, Han. done.
Qed.

Lemma all_dead_fixed_point_witness :
  wf initial_grid dead_heap ∧
  (∀ i j c, cell_at dead_heap initial_grid i j = Ok c →
            alive c = false ∧ aliveNext c = false) ∧
  ∃ h', getNextState initial_grid dead_heap = Ok h' ∧
        ∀ i j c', cell_at h' initial_grid i j = Ok c' →
                  alive c' = false ∧ aliveNext c' = false.
Proof.
  assert (Hdead : ∀ i j c, cell_at dead_heap initial_grid i j = Ok c →
                           alive c = false ∧ aliveNext c = false).
  { intros i j c (_ & _ & l & _ & Hc)%cell_at_Ok_inv.
    split; [by eapply dead_heap_dead | by eapply dead_heap_clean]. }
  split; [apply wf_dead|]. split; [exact Hdead|].
  apply (all_dead_fixed_point initial_grid dead_heap wf_dead Hdead).
Defined.

(** * What [getNextState] leaves alone *)

Lemma same_place_refl c : same_place c c.
Proof. by repeat split. Qed.

Lemma frame_refl h : frame h h.
Proof. split; [done|]. intros l c Hc. exists c. auto using same_place_refl. Qed.

Lemma frame_trans h1 h2 h3 : frame h1 h2 → frame h2 h3 → frame h1 h3.
Proof.
  intros [Hlen12 H12] [Hlen23 H23]. split; [congruence|].
  intros l c Hc. destruct (H12 l c Hc) as (c2 & Hc2 & Hx2 & Hy2 & Hd2).
  destruct (H23 l c2 Hc2) as (c3 & Hc3 & Hx3 & Hy3 & Hd3).
  exists c3. split; [done|]. repeat split; congruence.
Qed.

Lemma store_frame h p f h' :
  (∀ c, same_place c (f c)) → store h p f = Ok h' → frame h h'.
Proof.
  intros Hf. unfold store. destruct p as [l|]; [|done].
  destruct (h !! l) as [c|] eqn:Hc; [|done]. intros [= <-].
  split; [apply length_insert|]. intros l' c' Hc'.
  destruct (decide (l = l')) as [<-|Hne].
  - exists (f c). rewrite list_lookup_insert_eq by (eapply lookup_lt_Some, Hc).
    split; [done|]. assert (c' = c) as -> by congruence. apply Hf.
  - exists c'. rewrite list_lookup_insert_ne by done.
    auto using same_place_refl.
Qed.

Lemma decide_cell_frame cells x y c h h' :
  decide_cell cells x y c h = Ok h' → frame h h'.
Proof.
  unfold decide_cell. intros Hrun.
  apply bind_Ok_inv in Hrun as (n & _ & Hrun).
  apply bind_Ok_inv in Hrun as (cv & _ & Hrun).
  destruct (negb (alive cv) && (n =? 3));
    [by eapply store_frame, Hrun; intros []|].
  destruct (negb (alive cv)); [injection Hrun as <-; apply frame_refl|].
  destruct (alive cv && ((n <? 2) || (n >? 3)));
    by eapply store_frame, Hrun; intros [].
Qed.

Lemma commit_cell_frame c h h' : commit_cell c h = Ok h' → frame h h'.
Proof.
  unfold commit_cell. intros Hrun.
  apply bind_Ok_inv in Hrun as (cv & _ & Hrun).
  by eapply store_frame, Hrun; intros [].
Qed.

Lemma visit_frame cells body order h h' :
  (∀ x y c h h', body x y c h = Ok h' → frame h h') →
  visit cells body order h = Ok h' → frame h h'.
Proof.
  intros Hbody. unfold visit.
  apply (foldM_preserves frame); auto using frame_refl.
  { intros ???. apply frame_trans. }
  intros [x y] s s' _ Hrun.
  apply bind_Ok_inv in Hrun as (row & _ & Hrun).
  apply bind_Ok_inv in Hrun as (c & _ & Hrun).
  by eapply Hbody.
Qed.

Lemma load_frame h h' p c :
  frame h h' → load h p = Ok c → ∃ c', load h' p = Ok c' ∧ same_place c c'.
Proof.
  intros [_ Hframe]. unfold load. destruct p as [l|]; simpl; [|done].
  destruct (h !! l) as [c0|] eqn:Hc; [|done]. intros [= <-].
  destruct (Hframe l c0 Hc) as (c' & -> & Hsame). eauto.
Qed.

(** C9. Cell positions are immutable.  On every grid, a call of
    [getNextState] that returns leaves the heap with the same addresses
    and, at each address, a cell with the same [x], [y] and [drawable]:
    only [alive] and [aliveNext] can differ.  So the cell found at a
    position of the grid has the same coordinates and handle after the
    call as before. *)
Theorem getNextState_keeps_positions cells h h' :
  getNextState cells h = Ok h' →
  frame h h' ∧
  ∀ i j c, cell_at h cells i j = Ok c →
           ∃ c', cell_at h' cells i j = Ok c' ∧
                 x c' = x c ∧ y c' = y c ∧ drawable c' = drawable c.
Proof.
  rewrite getNextState_visit. unfold getNextState_in. intros Hrun.
  apply bind_Ok_inv in Hrun as (h1 & Hrun1 & Hrun2).
  assert (Hframe : frame h h').
  { eapply frame_trans.
    - eapply visit_frame, Hrun1. intros ?????. by eapply decide_cell_frame.
    - eapply visit_frame, Hrun2. intros ?????. by eapply commit_cell_frame. }
  split; [done|]. intros i j c. unfold cell_at.
  destruct (index cells i) as [row|]; simpl; [|done].
  destruct (index row j) as [p|]; simpl; [|done].
  by apply load_frame.
Qed.

Lemma getNextState_keeps_positions_witness :
  ∃ h', getNextState initial_grid demo_heap = Ok h' ∧ frame demo_heap h' ∧
    ∀ i j c, cell_at demo_heap initial_grid i j = Ok c →
             ∃ c', cell_at h' initial_grid i j = Ok c' ∧
                   x c' = x c ∧ y c' = y c ∧ drawable c' = drawable c.
Proof.
  destruct (getNextState_wf initial_grid demo_heap wf_demo) as (h' & Hrun & _).
  exists h'. split; [exact Hrun|].
  apply (getNextState_keeps_positions initial_grid demo_heap h' Hrun).
Defined.

(** * The grid of [makeCells] *)

(** C10. [makeCells] returns a well-formed grid: exactly [rows] outer
    entries of exactly [columns] cells each, the cell stored at
    [cells[i][j]] carrying the coordinates [(i, j)] and a false
    [aliveNext]; its [alive] field is true exactly when the draw
    [rand.Intn(2)] made for it returned 1, that is, for one of the two
    values the draw can take.  Each cell has a draw of its own:
    [rows * columns] draws are made, the cell at [(i, j)] uses draw number
    [i * columns + j], and no two cells share one. *)
Theorem makeCells_grid Intn2 makeVao :
  ∃ cells h k,
    makeCells Intn2 makeVao = Ok (cells, (h, k)) ∧
    length cells = Z.to_nat rows ∧
    Forall (λ row : list (option nat), length row = Z.to_nat columns) cells ∧
    k = Z.to_nat (rows * columns) ∧
    (∀ i j : nat,
       Z.of_nat i < rows → Z.of_nat j < columns →
       ∃ c, cell_at h cells (Z.of_nat i) (Z.of_nat j) = Ok c ∧
            x c = Z.of_nat i ∧ y c = Z.of_nat j ∧ aliveNext c = false ∧
            alive c = (Intn2 (i * Z.to_nat columns + j)%nat =? 1) ∧
            (0 ≤ Intn2 (i * Z.to_nat columns + j)%nat < 2 →
             (alive c = true ↔ Intn2 (i * Z.to_nat columns + j)%nat = 1) ∧
             (alive c = false ↔ Intn2 (i * Z.to_nat columns + j)%nat = 0)) ∧
            (i * Z.to_nat columns + j < k)%nat) ∧
    (∀ i j i' j' : nat,
       Z.of_nat j < columns → Z.of_nat j' < columns →
       (i * Z.to_nat columns + j = i' * Z.to_nat columns + j')%nat →
       i = i' ∧ j = j').
Proof.
  exists initial_grid, (initial_heap Intn2 makeVao), (Z.to_nat (rows * columns)).
  split; [apply makeCells_eq|].
  destruct shape_ok_initial_grid as [Hlen Hrows].
  split; [done|]. split; [done|]. split; [done|]. split.
  - intros i j Hi Hj. eexists. split.
    + rewrite (cell_at_ptr _ _ _ _ (Some (i * Z.to_nat columns + j)%nat)).
      * apply load_Ok, lookup_initial_heap; unfold rows, columns in *; lia.
      * apply ptr_at_initial_grid; unfold rows, columns in *; lia.
    + simpl. do 4 (split; [done|]). split.
      * intros Hdraw.
        destruct (Z.eqb_spec (Intn2 (i * Z.to_nat columns + j)%nat) 1);
          split; split; intros; try done; lia.
      * unfold rows, columns in *. lia.
  - intros i j i' j' Hj Hj' Heq. unfold columns in *.
    change (Z.to_nat 30) with 30%nat in Heq. lia.
Qed.

(** * Determinism

    Two runs of [getNextState] on structurally identical grids are kept
    in step by a simulation: cell by cell, both read the same values, take
    the same branch and write the same values. *)

Lemma outcome_bind {A B A' B' : Type} (R : A → B → Prop) (R' : A' → B' → Prop)
    (r1 : result A) (r2 : result B) (k1 : A → result A') (k2 : B → result B') :
  outcome R r1 r2 → (∀ a b, R a b → outcome R' (k1 a) (k2 b)) →
  outcome R' (r1 ≫= k1) (r2 ≫= k2).
Proof. destruct r1, r2; simpl; intros H Hk; auto; done. Qed.

Lemma foldM_outcome {A S1 S2 : Type} (R : S1 → S2 → Prop)
    (f : A → S1 → result S1) (g : A → S2 → result S2) l :
  (∀ a s1 s2, a ∈ l → R s1 s2 → outcome R (f a s1) (g a s2)) →
  ∀ s1 s2, R s1 s2 → outcome R (foldM f l s1) (foldM g l s2).
Proof.
  induction l as [|a l IH]; intros Hstep s1 s2 HR; simpl; [done|].
  eapply outcome_bind.
  - apply Hstep; [by left | done].
  - intros t1 t2 HR'. apply IH; [|done].
    intros b u1 u2 Hb. apply Hstep. by right.
Qed.

Lemma positions_from_lengths k (cells1 cells2 : list (list (option nat))) :
  length <$> cells1 = length <$> cells2 →
  positions_from k cells1 = positions_from k cells2.
Proof.
  revert k cells2. induction cells1 as [|row1 cells1 IH];
    intros k [|row2 cells2] Heq; try done.
  simpl in *. injection Heq as Hrow Hrest. rewrite Hrow. f_equal. by apply IH.
Qed.

Lemma state_at_ptr h cells x y l c :
  ptr_at cells x y = Some (Some l) → h !! l = Some c →
  state_at h cells (Z.of_nat x) (Z.of_nat y) = Ok (alive c, aliveNext c).
Proof.
  intros Hp Hc. unfold state_at.
  by rewrite (cell_at_ptr _ _ _ _ _ Hp), (load_Ok _ _ _ Hc).
Qed.

Lemma alive_at_state h cells i j :
  alive_at h cells i j = s ← state_at h cells i j; Ok s.1.
Proof. unfold alive_at, state_at. by destruct (cell_at h cells i j). Qed.

(** Writing to the cell at [(x, y)] changes the state there and nowhere
    else, as no other entry of the grid is an alias of it. *)
Lemma state_at_insert h cells x y l c c' i j :
  NoDup (mjoin cells) → ptr_at cells x y = Some (Some l) → h !! l = Some c →
  state_at (<[l := c']> h) cells i j =
  if bool_decide (i = Z.of_nat x ∧ j = Z.of_nat y)
  then Ok (alive c', aliveNext c')
  else state_at h cells i j.
Proof.
  intros Hnd Hp Hc. case_bool_decide as Hij.
  - destruct Hij as [-> ->]. apply (state_at_ptr _ _ _ _ _ _ Hp).
    apply list_lookup_insert_eq. eapply lookup_lt_Some, Hc.
  - unfold state_at, cell_at.
    destruct (index cells i) as [row|] eqn:Hrow; simpl; [|done].
    destruct (index row j) as [p|] eqn:Hrp; simpl; [|done].
    apply index_Ok_inv in Hrow as [Hi Hrow].
    apply index_Ok_inv in Hrp as [Hj Hrp].
    unfold load. destruct p as [l'|]; simpl; [|done].
    rewrite list_lookup_insert_ne; [done|]. intros ->. apply Hij.
    destruct (ptr_at_inj cells x y (Z.to_nat i) (Z.to_nat j) (Some l') Hnd Hp)
      as [-> ->]; [|lia].
    apply ptr_at_Some. eauto.
Qed.

Section Simulation.

Variables cells1 cells2 : list (list (option nat)).

Local Abbreviation related := (related cells1 cells2).

Lemma related_position h1 h2 x y :
  related h1 h2 → (x, y) ∈ positions cells1 →
  ∃ l1 c1 l2 c2,
    ptr_at cells1 x y = Some (Some l1) ∧ h1 !! l1 = Some c1 ∧
    ptr_at cells2 x y = Some (Some l2) ∧ h2 !! l2 = Some c2 ∧
    alive c1 = alive c2 ∧ aliveNext c1 = aliveNext c2.
Proof.
  intros ([Hshape Hstate] & Hsep1 & Hsep2) Hxy.
  assert (Hxy2 : (x, y) ∈ positions cells2).
  { unfold positions in *. by rewrite <- (positions_from_lengths _ _ _ Hshape). }
  apply elem_of_positions in Hxy as [p1 Hp1].
  apply elem_of_positions in Hxy2 as [p2 Hp2].
  destruct (separate_ptr_at _ _ _ _ _ Hsep1 Hp1) as (l1 & c1 & -> & Hc1).
  destruct (separate_ptr_at _ _ _ _ _ Hsep2 Hp2) as (l2 & c2 & -> & Hc2).
  exists l1, c1, l2, c2. do 4 (split; [done|]).
  specialize (Hstate (Z.of_nat x) (Z.of_nat y)).
  rewrite (state_at_ptr _ _ _ _ _ _ Hp1 Hc1) in Hstate.
  rewrite (state_at_ptr _ _ _ _ _ _ Hp2 Hc2) in Hstate.
  by injection Hstate.
Qed.

Lemma related_aliveNeighbors h1 h2 x y :
  related h1 h2 →
  aliveNeighbors h1 cells1 x y = aliveNeighbors h2 cells2 x y.
Proof.
  intros ([_ Hstate] & _). apply aliveNeighbors_local. intros i j _ _ _.
  by rewrite !alive_at_state, Hstate.
Qed.

(** Writing equal states at the same position of both grids. *)
Lemma related_insert h1 h2 x y l1 c1 c1' l2 c2 c2' :
  related h1 h2 →
  ptr_at cells1 x y = Some (Some l1) → h1 !! l1 = Some c1 →
  ptr_at cells2 x y = Some (Some l2) → h2 !! l2 = Some c2 →
  alive c1' = alive c2' → aliveNext c1' = aliveNext c2' →
  related (<[l1 := c1']> h1) (<[l2 := c2']> h2).
Proof.
  intros ([Hshape Hstate] & Hsep1 & Hsep2) Hp1 Hc1 Hp2 Hc2 Ha Han.
  split; [|split].
  - split; [done|]. intros i j.
    rewrite (state_at_insert h1 cells1 x y l1 c1 c1' i j (proj1 Hsep1) Hp1 Hc1).
    rewrite (state_at_insert h2 cells2 x y l2 c2 c2' i j (proj1 Hsep2) Hp2 Hc2).
    case_bool_decide; [by rewrite Ha, Han | apply Hstate].
  - eapply separate_length; [apply length_insert | done].
  - eapply separate_length; [apply length_insert | done].
Qed.

Lemma related_decide_cell h1 h2 x y l1 c1 l2 c2 :
  related h1 h2 →
  ptr_at cells1 x y = Some (Some l1) → h1 !! l1 = Some c1 →
  ptr_at cells2 x y = Some (Some l2) → h2 !! l2 = Some c2 →
  alive c1 = alive c2 → aliveNext c1 = aliveNext c2 →
  outcome related
    (decide_cell cells1 (Z.of_nat x) (Z.of_nat y) (Some l1) h1)
    (decide_cell cells2 (Z.of_nat x) (Z.of_nat y) (Some l2) h2).
Proof.
  intros Hrel Hp1 Hc1 Hp2 Hc2 Ha Han.
  destruct (aliveNeighbors h2 cells2 (Z.of_nat x) (Z.of_nat y)) as [n|p] eqn:Hn.
  - rewrite (decide_cell_Ok cells2 h2 _ _ l2 c2 n Hn Hc2).
    rewrite <- (related_aliveNeighbors h1 h2) in Hn by done.
    rewrite (decide_cell_Ok cells1 h1 _ _ l1 c1 n Hn Hc1). simpl.
    eapply related_insert; eauto. simpl.
    unfold next_state. by rewrite Ha, Han.
  - unfold decide_cell. rewrite (related_aliveNeighbors h1 h2), Hn by done.
    done.
Qed.

Lemma related_commit_cell h1 h2 x y l1 c1 l2 c2 :
  related h1 h2 →
  ptr_at cells1 x y = Some (Some l1) → h1 !! l1 = Some c1 →
  ptr_at cells2 x y = Some (Some l2) → h2 !! l2 = Some c2 →
  alive c1 = alive c2 → aliveNext c1 = aliveNext c2 →
  outcome related (commit_cell (Some l1) h1) (commit_cell (Some l2) h2).
Proof.
  intros Hrel Hp1 Hc1 Hp2 Hc2 Ha Han.
  rewrite (commit_cell_Ok _ _ _ Hc1), (commit_cell_Ok _ _ _ Hc2). simpl.
  eapply related_insert; eauto.
Qed.

(** A pass keeps the two runs related if its body does, cell by cell. *)
Lemma related_visit body1 body2 order h1 h2 :
  (∀ h1 h2 x y l1 c1 l2 c2,
     related h1 h2 →
     ptr_at cells1 x y = Some (Some l1) → h1 !! l1 = Some c1 →
     ptr_at cells2 x y = Some (Some l2) → h2 !! l2 = Some c2 →
     alive c1 = alive c2 → aliveNext c1 = aliveNext c2 →
     outcome related (body1 (Z.of_nat x) (Z.of_nat y) (Some l1) h1)
                     (body2 (Z.of_nat x) (Z.of_nat y) (Some l2) h2)) →
  (∀ p, p ∈ order → p ∈ positions cells1) →
  related h1 h2 →
  outcome related (visit cells1 body1 order h1) (visit cells2 body2 order h2).
Proof.
  intros Hbody Hvalid. unfold visit. apply foldM_outcome.
  intros [x y] s1 s2 Hxy Hrel.
  destruct (related_position s1 s2 x y Hrel (Hvalid _ Hxy))
    as (l1 & c1 & l2 & c2 & Hp1 & Hc1 & Hp2 & Hc2 & Ha & Han).
  pose proof Hp1 as (row1 & Hrow1 & Hrp1)%ptr_at_Some.
  pose proof Hp2 as (row2 & Hrow2 & Hrp2)%ptr_at_Some.
  rewrite (index_lookup _ _ _ Hrow1), (index_lookup _ _ _ Hrow2). simpl.
  rewrite (index_lookup _ _ _ Hrp1), (index_lookup _ _ _ Hrp2). simpl.
  by eapply Hbody.
Qed.

Lemma related_getNextState h1 h2 :
  related h1 h2 →
  outcome related (getNextState cells1 h1) (getNextState cells2 h2).
Proof.
  intros Hrel. rewrite !getNextState_visit. unfold getNextState_in.
  assert (Hpos : positions cells2 = positions cells1).
  { destruct Hrel as ([Hshape _] & _). symmetry.
    by apply positions_from_lengths. }
  rewrite Hpos. eapply outcome_bind.
  - apply related_visit; [apply related_decide_cell | done | done].
  - intros h1' h2' Hrel'. apply related_visit; [|done|done].
    intros ??. apply related_commit_cell.
Qed.

End Simulation.

Lemma outcome_impl {A B : Type} (R R' : A → B → Prop) r1 r2 :
  (∀ a b, R a b → R' a b) → outcome R r1 r2 → outcome R' r1 r2.
Proof. intros HR. destruct r1, r2; simpl; auto. Qed.

Lemma identical_demo : identical initial_grid demo_heap initial_grid demo_heap'.
Proof.
  split; [done|]. intros i j. unfold state_at, cell_at.
  destruct (index initial_grid i) as [row|]; [|reflexivity].
  cbn [mbind result_bind].
  destruct (index row j) as [[l|]|]; [|reflexivity..].
  assert (Hl : (λ c, (alive c, aliveNext c)) <$> demo_heap !! l =
               (λ c, (alive c, aliveNext c)) <$> demo_heap' !! l).
  { unfold demo_heap, demo_heap', initial_heap.
    rewrite !list_lookup_fmap. by destruct (seq _ _ !! l). }
  unfold load. cbn [mbind result_bind deref].
  destruct (demo_heap !! l), (demo_heap' !! l); simpl in *; congruence.
Qed.

Lemma wf_demo' : wf initial_grid demo_heap'.
Proof. apply wf_initial_grid, length_initial_heap. Qed.

(** C7. [getNextState] is deterministic up to structural identity.  For
    any two grids of pairwise distinct allocated cells that have the same
    dimensions and, cell for cell, the same [alive] and [aliveNext]
    values, the two calls end alike: both panic in the same way, or both
    return and the resulting grids are again structurally identical.  On
    grids of [rows] by [columns] cells both return. *)
Theorem getNextState_deterministic cells1 h1 cells2 h2 :
  separate cells1 h1 → separate cells2 h2 →
  identical cells1 h1 cells2 h2 →
  outcome (λ h1' h2', identical cells1 h1' cells2 h2')
    (getNextState cells1 h1) (getNextState cells2 h2) ∧
  (shape_ok cells1 →
   ∃ h1' h2', getNextState cells1 h1 = Ok h1' ∧
              getNextState cells2 h2 = Ok h2' ∧
              identical cells1 h1' cells2 h2').
Proof.
  intros Hsep1 Hsep2 Hid.
  assert (Hout : outcome (λ h1' h2', identical cells1 h1' cells2 h2')
                   (getNextState cells1 h1) (getNextState cells2 h2)).
  { eapply outcome_impl; [|apply (related_getNextState cells1 cells2 h1 h2)].
    - by intros h1' h2' (? & _).
    - done. }
  split; [done|]. intros Hshape.
  destruct (getNextState_wf cells1 h1) as (h1' & Hrun1 & _); [done|].
  rewrite Hrun1 in Hout.
  destruct (getNextState cells2 h2) as [h2'|p]; [|done].
  by exists h1', h2'.
Qed.

Lemma getNextState_deterministic_witness :
  separate initial_grid demo_heap ∧ separate initial_grid demo_heap' ∧
  identical initial_grid demo_heap initial_grid demo_heap' ∧
  outcome (λ h1' h2', identical initial_grid h1' initial_grid h2')
    (getNextState initial_grid demo_heap)
    (getNextState initial_grid demo_heap').
Proof.
  split; [apply wf_demo|]. split; [apply wf_demo'|].
  split; [apply identical_demo|].
  destruct (getNextState_deterministic initial_grid demo_heap
              initial_grid demo_heap') as [Hout _];
    [apply wf_demo | apply wf_demo' | apply identical_demo |].
  exact Hout.
Defined.

(** * Generations on the matrix of [alive] values *)

Lemma count_live_ext P Q x y :
  (∀ i j, in_grid i j = true → P i j = Q i j) →
  count_live P x y = count_live Q x y.
Proof.
  intros Heq. unfold count_live. apply sumZ_ext. intros [i j] _.
  destruct (in_grid i j) eqn:Hg; [|done]. by rewrite (Heq i j Hg).
Qed.

Lemma shows_alive_b h cells P i j :
  shows h cells P → in_grid i j = true → alive_b h cells i j = P i j.
Proof.
  intros Hshow [Hi Hj]%in_grid_true. unfold alive_b.
  by rewrite (Hshow i j Hi Hj).
Qed.

(** On a grid that shows [P], the count of [aliveNeighbors] is the count
    on the matrix. *)
Lemma aliveNeighbors_shows h cells P x y :
  wf cells h → shows h cells P → 0 ≤ x < columns → 0 ≤ y < rows →
  aliveNeighbors h cells x y = Ok (count_live P x y).
Proof.
  intros Hwf Hshow Hx Hy. rewrite aliveNeighbors_moore by done.
  f_equal. unfold live_neighbors, count_live.
  rewrite (length_filter_sumZ (λ '(i, j), in_grid i j && alive_b h cells i j)).
  apply sumZ_ext. intros [i j] _.
  destruct (in_grid i j) eqn:Hg; [|done].
  by rewrite (shows_alive_b h cells P i j Hshow Hg).
Qed.

Lemma alive_at_Ok_inv h cells i j b :
  alive_at h cells i j = Ok b → ∃ c, cell_at h cells i j = Ok c ∧ alive c = b.
Proof.
  unfold alive_at. destruct (cell_at h cells i j) as [c|]; [|done].
  intros [= <-]. by exists c.
Qed.

(** One call of [getNextState] on a clean grid is one generation. *)
Lemma getNextState_shows cells h P :
  wf cells h → clean h cells → shows h cells P →
  ∃ h', getNextState cells h = Ok h' ∧ wf cells h' ∧ clean h' cells ∧
        shows h' cells (life_step P).
Proof.
  intros Hwf Hclean Hshow.
  destruct (getNextState_wf cells h Hwf) as (h' & Hrun & Hlen & Hin & _).
  exists h'. split; [done|]. split; [by eapply wf_length|]. split.
  - intros i j c' (Hi & Hj & l & Hp & Hc')%cell_at_Ok_inv.
    destruct (separate_ptr_at cells h _ _ _ (proj2 Hwf) Hp)
      as (l' & c & [= <-] & Hc).
    rewrite (Hin _ _ _ _ Hp Hc) in Hc'. by injection Hc' as <-.
  - intros i j Hi Hj.
    destruct (wf_cell_at h cells i j Hwf Hi Hj) as (l & c & Hp & Hc & Hcell).
    pose proof (Hshow i j Hi Hj) as Ha. unfold alive_at in Ha.
    rewrite Hcell in Ha. injection Ha as Ha.
    unfold alive_at.
    rewrite (cell_at_lookup h' cells i j l _ (proj1 Hi) (proj1 Hj) Hp
               (Hin _ _ _ _ Hp Hc)).
    simpl. f_equal.
    rewrite (neighbors_eq h cells i j (count_live P i j));
      [|lia|lia|by apply aliveNeighbors_shows].
    rewrite next_state_clean.
    + unfold life_step. by rewrite Ha.
    + by apply (Hclean i j).
Qed.

Lemma advance_shows cells h P n :
  wf cells h → clean h cells → shows h cells P →
  ∃ h', advance n cells h = Ok h' ∧ wf cells h' ∧ clean h' cells ∧
        shows h' cells (life_steps n P).
Proof.
  revert h P. induction n as [|n IH]; intros h P Hwf Hclean Hshow; simpl.
  { by exists h. }
  destruct (getNextState_shows cells h P Hwf Hclean Hshow)
    as (h1 & -> & Hwf1 & Hclean1 & Hshow1).
  simpl. by apply IH.
Qed.

Lemma clean_initial_heap Intn2 makeVao :
  clean (initial_heap Intn2 makeVao) initial_grid.
Proof.
  intros i j c (_ & _ & l & _ & Hc)%cell_at_Ok_inv _.
  unfold initial_heap in Hc.
  by apply list_lookup_fmap_Some in Hc as (k & -> & _).
Qed.

Lemma shows_initial_heap Intn2 makeVao :
  shows (initial_heap Intn2 makeVao) initial_grid (initial_matrix Intn2).
Proof.
  intros i j Hi Hj. unfold alive_at.
  rewrite (cell_at_lookup _ initial_grid i j
             (Z.to_nat i * Z.to_nat columns + Z.to_nat j)%nat
             {| drawable := makeVao (Z.to_nat i * Z.to_nat columns + Z.to_nat j)%nat;
                alive := Intn2 (Z.to_nat i * Z.to_nat columns + Z.to_nat j)%nat =? 1;
                aliveNext := false;
                x := Z.of_nat (Z.to_nat i);
                y := Z.of_nat (Z.to_nat j) |}); [done|lia|lia| |].
  - apply ptr_at_initial_grid; unfold rows, columns in *; lia.
  - apply lookup_initial_heap; unfold rows, columns in *; lia.
Qed.

(** * Patterns

    Facts of the rule on the bounded board, proved on matrices by cases on
    the position relative to the pattern. *)

Ltac decide_cmp :=
  repeat match goal with
  | |- context [Z.eqb ?a ?b] =>
      first [ rewrite (proj2 (Z.eqb_eq a b)) by lia
            | rewrite (proj2 (Z.eqb_neq a b)) by lia ]
  | |- context [Z.leb ?a ?b] =>
      first [ rewrite (proj2 (Z.leb_le a b)) by lia
            | rewrite (proj2 (Z.leb_gt a b)) by lia ]
  | |- context [Z.ltb ?a ?b] =>
      first [ rewrite (proj2 (Z.ltb_lt a b)) by lia
            | rewrite (proj2 (Z.ltb_ge a b)) by lia ]
  end.

Ltac relative_position i b H :=
  assert (i < b - 2 ∨ i = b - 2 ∨ i = b - 1 ∨ i = b ∨ i = b + 1 ∨
          i = b + 2 ∨ i > b + 2) as H by lia;
  destruct H as [H|[H|[H|[H|[H|[H|H]]]]]].

Ltac pattern_cases :=
  first
    [ exfalso; unfold rows, columns in *; lia
    | cbn [foldr]; decide_cmp; cbn [orb andb]; rewrite ?andb_false_r;
      unfold in_grid, rows, columns in *; decide_cmp; reflexivity ].

Lemma life_step_block bx by_ i j :
  0 ≤ bx → bx + 1 < columns → 0 ≤ by_ → by_ + 1 < rows →
  0 ≤ i < columns → 0 ≤ j < rows →
  life_step (block bx by_) i j = block bx by_ i j.
Proof.
  intros Hbx Hbx' Hby Hby' Hi Hj.
  unfold life_step, count_live, moore, sumZ, block.
  relative_position i bx Hri; relative_position j by_ Hrj; pattern_cases.
Qed.



Lemma life_step_ext P Q i j :
  (∀ i j, in_grid i j = true → P i j = Q i j) → in_grid i j = true →
  life_step P i j = life_step Q i j.
Proof.
  intros Heq Hg. unfold life_step.
  by rewrite (Heq i j Hg), (count_live_ext P Q i j Heq).
Qed.

Lemma life_steps_ext n P Q i j :
  (∀ i j, in_grid i j = true → P i j = Q i j) → in_grid i j = true →
  life_steps n P i j = life_steps n Q i j.
Proof.
  revert P Q i j. induction n as [|n IH]; intros P Q i j Heq Hg; simpl.
  - by apply Heq.
  - apply IH; [|done]. intros i' j' Hg'. by apply life_step_ext.
Qed.

Lemma shows_ext h cells P Q :
  (∀ i j, in_grid i j = true → P i j = Q i j) →
  shows h cells P → shows h cells Q.
Proof.
  intros Heq Hshow i j Hi Hj. rewrite (Hshow i j Hi Hj). f_equal.
  apply Heq, in_grid_true. done.
Qed.

(** A matrix that one generation leaves as it is stays for ever. *)
Lemma life_steps_fixed n P i j :
  (∀ i j, in_grid i j = true → life_step P i j = P i j) →
  in_grid i j = true → life_steps n P i j = P i j.
Proof.
  intros Hfix. revert i j. induction n as [|n IH]; intros i j Hg; simpl; [done|].
  rewrite (life_steps_ext n (life_step P) P i j Hfix Hg). by apply IH.
Qed.


Lemma life_step_blinker_border bx i j :
  1 ≤ bx → bx + 1 < columns → 0 ≤ i < columns → 0 ≤ j < rows →
  life_step (blinker_x bx 0) i j = domino_y bx i j.
Proof.
  intros Hbx Hbx' Hi Hj.
  unfold life_step, count_live, moore, sumZ, blinker_x, domino_y.
  relative_position i bx Hri; relative_position j 0 Hrj; pattern_cases.
Qed.

Lemma life_step_domino_border bx i j :
  1 ≤ bx → bx + 1 < columns → 0 ≤ i < columns → 0 ≤ j < rows →
  life_step (domino_y bx) i j = all_dead i j.
Proof.
  intros Hbx Hbx' Hi Hj.
  unfold life_step, count_live, moore, sumZ, domino_y, all_dead.
  relative_position i bx Hri; relative_position j 0 Hrj; pattern_cases.
Qed.

Lemma life_step_all_dead i j : life_step all_dead i j = all_dead i j.
Proof.
  unfold life_step, count_live, moore, sumZ, all_dead. cbn [foldr].
  by rewrite !andb_false_r.
Qed.

Lemma wf_matrix_heap P : wf initial_grid (matrix_heap P).
Proof. apply wf_initial_grid, length_initial_heap. Qed.

Lemma clean_matrix_heap P : clean (matrix_heap P) initial_grid.
Proof. apply clean_initial_heap. Qed.

Lemma shows_matrix_heap P : shows (matrix_heap P) initial_grid P.
Proof.
  eapply shows_ext; [|apply shows_initial_heap].
  intros i j [Hi Hj]%in_grid_true. unfold initial_matrix.
  unfold rows, columns in *. change (Z.to_nat 30) with 30%nat.
  replace ((Z.to_nat i * 30 + Z.to_nat j) / 30)%nat with (Z.to_nat i)
    by (apply Nat.div_unique with (Z.to_nat j); lia).
  replace ((Z.to_nat i * 30 + Z.to_nat j) `mod` 30)%nat with (Z.to_nat j)
    by (apply Nat.mod_unique with (Z.to_nat i); lia).
  rewrite !Z2Nat.id by lia. by destruct (P i j).
Qed.

(** X7. [n] calls of [getNextState] are [n] generations.  On a grid of
    [rows] by [columns] distinct allocated cells with no pending
    [aliveNext] on a dead cell, whose [alive] values are the matrix [P],
    [n] successive calls all return, and the [alive] values are then the
    matrix obtained from [P] by [n] applications of the B3/S23 rule on the
    bounded board. *)
Theorem advance_generations cells h P n :
  wf cells h → clean h cells → shows h cells P →
  ∃ h', advance n cells h = Ok h' ∧ shows h' cells (life_steps n P) ∧
        wf cells h' ∧ clean h' cells.
Proof.
  revert h P. induction n as [|n IH]; intros h P Hwf Hclean Hshow.
  { by exists h. }
  destruct (getNextState_shows cells h P Hwf Hclean Hshow)
    as (h1 & Hstep & Hwf1 & Hclean1 & Hshow1).
  destruct (IH h1 (life_step P) Hwf1 Hclean1 Hshow1)
    as (h' & Hrun & Hshow' & Hwf' & Hclean').
  exists h'. split; [|done]. simpl. by rewrite Hstep.
Qed.

Lemma advance_generations_witness :
  wf initial_grid (matrix_heap (blinker_x 5 5)) ∧
  clean (matrix_heap (blinker_x 5 5)) initial_grid ∧
  shows (matrix_heap (blinker_x 5 5)) initial_grid (blinker_x 5 5) ∧
  ∃ h', advance 3 initial_grid (matrix_heap (blinker_x 5 5)) = Ok h' ∧
        shows h' initial_grid (life_steps 3 (blinker_x 5 5)) ∧
        wf initial_grid h' ∧ clean h' initial_grid.
Proof.
  split; [apply wf_matrix_heap|]. split; [apply clean_matrix_heap|].
  split; [apply shows_matrix_heap|].
  exact (advance_generations initial_grid (matrix_heap (blinker_x 5 5))
           (blinker_x 5 5) 3 (wf_matrix_heap _) (clean_matrix_heap _)
           (shows_matrix_heap _)).
Defined.

Lemma reachable_advance cells h n h' :
  reachable cells h → advance n cells h = Ok h' → reachable cells h'.
Proof.
  revert h. induction n as [|n IH]; intros h Hreach; simpl.
  - by intros [= <-].
  - intros (h1 & Hstep & Hrest)%bind_Ok_inv.
    eapply IH; [|exact Hrest]. by eapply reachable_step.
Qed.

(** X8. The program computes the Game of Life of its random matrix.
    Whatever the random source and the graphics library return,
    [makeCells] followed by [n] calls of [getNextState] never panics, and
    the [alive] values are then the [n]-th generation of the matrix in
    which the cell [(i, j)] is alive exactly when draw number
    [i * columns + j] of [rand.Intn(2)] returned 1. *)
Theorem program_generations Intn2 makeVao n :
  ∃ cells h k h',
    makeCells Intn2 makeVao = Ok (cells, (h, k)) ∧
    advance n cells h = Ok h' ∧
    reachable cells h' ∧
    shows h' cells (life_steps n (initial_matrix Intn2)).
Proof.
  destruct (advance_shows initial_grid (initial_heap Intn2 makeVao)
              (initial_matrix Intn2) n)
    as (h' & Hrun & _ & _ & Hshow).
  { apply wf_initial_grid, length_initial_heap. }
  { apply clean_initial_heap. }
  { apply shows_initial_heap. }
  exists initial_grid, (initial_heap Intn2 makeVao),
    (Z.to_nat (rows * columns)), h'.
  split; [apply makeCells_eq|]. split; [done|]. split; [|done].
  eapply reachable_advance; [|exact Hrun].
  eapply reachable_init, makeCells_eq.
Qed.

Lemma shows_fixed cells h P n :
  wf cells h → clean h cells → shows h cells P →
  (∀ i j, in_grid i j = true → life_step P i j = P i j) →
  ∃ h', advance n cells h = Ok h' ∧ shows h' cells P.
Proof.
  intros Hwf Hclean Hshow Hfix.
  destruct (advance_shows cells h P n Hwf Hclean Hshow)
    as (h' & Hrun & _ & _ & Hshow').
  exists h'. split; [done|]. eapply shows_ext; [|exact Hshow'].
  intros i j Hg. by apply life_steps_fixed.
Qed.

(** X9. The block is a still life, also in a corner or on an edge.  If the
    live cells of a clean grid are exactly the four cells of a 2 by 2
    block that lies in the grid, then after any number of calls of
    [getNextState] they are the same four cells. *)
Theorem block_still_life cells h bx by_ n :
  wf cells h → clean h cells →
  0 ≤ bx → bx + 1 < columns → 0 ≤ by_ → by_ + 1 < rows →
  shows h cells (block bx by_) →
  ∃ h', advance n cells h = Ok h' ∧ shows h' cells (block bx by_).
Proof.
  intros Hwf Hclean Hbx Hbx' Hby Hby' Hshow.
  apply shows_fixed; [done..|].
  intros i j [Hi Hj]%in_grid_true. by apply life_step_block.
Qed.

Lemma block_still_life_witness :
  ∃ h', advance 4 initial_grid (matrix_heap (block 0 28)) = Ok h' ∧
        shows h' initial_grid (block 0 28).
Proof.
  apply (block_still_life initial_grid (matrix_heap (block 0 28)) 0 28 4
           (wf_matrix_heap _) (clean_matrix_heap _));
    [unfold rows, columns; lia.. | apply shows_matrix_heap].
Defined.



(** X11. The border is not a torus: a row of three live cells on the
    border row [j = 0] does not oscillate.  After one call of
    [getNextState] the live cells are the centre cell and the cell next to
    it inside the grid, and after two calls, and any further number, every
    cell is dead. *)
Theorem border_blinker_dies cells h bx n :
  wf cells h → clean h cells →
  1 ≤ bx → bx + 1 < columns →
  shows h cells (blinker_x bx 0) →
  (∃ h', advance 1 cells h = Ok h' ∧ shows h' cells (domino_y bx)) ∧
  (∃ h', advance (2 + n) cells h = Ok h' ∧ shows h' cells all_dead).
Proof.
  intros Hwf Hclean Hbx Hbx' Hshow.
  assert (H1 : ∀ i j, in_grid i j = true →
                      life_step (blinker_x bx 0) i j = domino_y bx i j).
  { intros i j [Hi Hj]%in_grid_true. by apply life_step_blinker_border. }
  assert (H2 : ∀ i j, in_grid i j = true →
                      life_step (domino_y bx) i j = all_dead i j).
  { intros i j [Hi Hj]%in_grid_true. by apply life_step_domino_border. }
  split.
  - destruct (advance_shows cells h _ 1 Hwf Hclean Hshow)
      as (h' & Hrun & _ & _ & Hshow').
    exists h'. split; [done|]. eapply shows_ext; [|exact Hshow']. exact H1.
  - destruct (advance_shows cells h _ (2 + n) Hwf Hclean Hshow)
      as (h' & Hrun & _ & _ & Hshow').
    exists h'. split; [done|]. eapply shows_ext; [|exact Hshow'].
    intros i j Hg.
    change (life_steps n (life_step (life_step (blinker_x bx 0))) i j =
            all_dead i j).
    rewrite (life_steps_ext n _ all_dead i j); [|  |done].
    + apply life_steps_fixed; [|done]. intros ???. apply life_step_all_dead.
    + intros i' j' Hg'.
      rewrite (life_step_ext _ (domino_y bx) i' j' H1 Hg'). by apply H2.
Qed.

Lemma border_blinker_dies_witness :
  (∃ h', advance 1 initial_grid (matrix_heap (blinker_x 7 0)) = Ok h' ∧
         shows h' initial_grid (domino_y 7)) ∧
  (∃ h', advance (2 + 0) initial_grid (matrix_heap (blinker_x 7 0)) = Ok h' ∧
         shows h' initial_grid all_dead).
Proof.
  apply (border_blinker_dies initial_grid (matrix_heap (blinker_x 7 0)) 7 0
           (wf_matrix_heap _) (clean_matrix_heap _));
    [unfold columns; lia.. | apply shows_matrix_heap].
Defined.

(** * More on [makeCells] *)

(** X1. [makeCells] allocates one fresh cell per position.  Whatever the
    random source and the graphics library return, the pointers of the
    grid it returns are non-nil, allocated and pairwise distinct; the heap
    holds [rows * columns] cells and nothing else: the cell at address [l]
    is the one the grid points to at the coordinates the cell carries;
    and it holds the handle returned by the call of [makeVao] made for
    it. *)
Theorem makeCells_fresh_grid Intn2 makeVao :
  ∃ cells h k,
    makeCells Intn2 makeVao = Ok (cells, (h, k)) ∧
    NoDup (mjoin cells) ∧
    Forall (λ p, is_Some (deref h p)) (mjoin cells) ∧
    length h = Z.to_nat (rows * columns) ∧
    (∀ l c, h !! l = Some c →
            ptr_at cells (Z.to_nat (x c)) (Z.to_nat (y c)) = Some (Some l) ∧
            drawable c = makeVao l).
Proof.
  exists initial_grid, (initial_heap Intn2 makeVao), (Z.to_nat (rows * columns)).
  split; [apply makeCells_eq|].
  destruct (wf_initial_grid (initial_heap Intn2 makeVao)
              (length_initial_heap _ _)) as [_ [Hnd Hall]].
  split; [done|]. split; [done|]. split; [apply length_initial_heap|].
  intros l c Hc. unfold initial_heap in Hc.
  apply list_lookup_fmap_Some in Hc as (k & -> & Hk).
  apply lookup_seq in Hk as [-> Hk]. rewrite !Nat.add_0_l.
  cbn [x y drawable].
  change (Z.to_nat (rows * columns)) with 900%nat in Hk.
  change (Z.to_nat columns) with 30%nat. split; [|done].
  rewrite !Nat2Z.id.
  rewrite (ptr_at_initial_grid (l / 30) (l `mod` 30)).
  - do 2 f_equal. change (Z.to_nat columns) with 30%nat.
    pose proof (Nat.div_mod_eq l 30). lia.
  - change (Z.to_nat rows) with 30%nat.
    apply Nat.Div0.div_lt_upper_bound. lia.
  - change (Z.to_nat columns) with 30%nat. apply Nat.mod_upper_bound. lia.
Qed.

(** * More on [getNextState] *)

Lemma next_state_cases c n :
  next_state c n =
  if alive c then (n =? 2) || (n =? 3) else (n =? 3) || aliveNext c.
Proof.
  unfold next_state. destruct (alive c); simpl.
  - destruct (Z.ltb_spec n 2), (Z.gtb_spec n 3), (Z.eqb_spec n 2),
      (Z.eqb_spec n 3); simpl; lia || done.
  - by destruct (n =? 3).
Qed.

(** X3. The transition on any grid, with or without pending [aliveNext].
    On every grid of [rows] by [columns] distinct allocated cells
    [getNextState] returns, and for every cell, [n] being its
    live-neighbour count before the call: a live cell is alive afterwards
    exactly when [n] is 2 or 3; a dead cell is alive afterwards exactly
    when [n] is 3 or its [aliveNext] was already true before the call.
    Afterwards [aliveNext] equals [alive] in every cell of the grid. *)
Theorem getNextState_transition cells h :
  wf cells h →
  ∃ h', getNextState cells h = Ok h' ∧
    ∀ i j c n,
      cell_at h cells i j = Ok c → aliveNeighbors h cells i j = Ok n →
      ∃ c', cell_at h' cells i j = Ok c' ∧
        aliveNext c' = alive c' ∧
        (alive c = true → (alive c' = true ↔ n = 2 ∨ n = 3)) ∧
        (alive c = false →
         (alive c' = true ↔ n = 3 ∨ aliveNext c = true)).
Proof.
  intros Hwf.
  destruct (getNextState_wf cells h Hwf) as (h' & Hrun & _ & Hin & _).
  exists h'. split; [done|]. intros i j c n Hc Hn.
  apply cell_at_Ok_inv in Hc as (Hi & Hj & l & Hp & Hl).
  exists (committed (decided h cells (Z.to_nat i) (Z.to_nat j) c)).
  split; [by eapply cell_at_lookup, Hin|]. split; [done|].
  simpl. rewrite (neighbors_eq _ _ _ _ _ Hi Hj Hn), next_state_cases.
  split; intros ->.
  - rewrite orb_true_iff, !Z.eqb_eq. done.
  - rewrite orb_true_iff, Z.eqb_eq. done.
Qed.

Lemma getNextState_transition_witness :
  wf initial_grid stale_heap ∧
  ∃ h', getNextState initial_grid stale_heap = Ok h' ∧
    ∀ i j c n,
      cell_at stale_heap initial_grid i j = Ok c →
      aliveNeighbors stale_heap initial_grid i j = Ok n →
      ∃ c', cell_at h' initial_grid i j = Ok c' ∧
        aliveNext c' = alive c' ∧
        (alive c = true → (alive c' = true ↔ n = 2 ∨ n = 3)) ∧
        (alive c = false →
         (alive c' = true ↔ n = 3 ∨ aliveNext c = true)).
Proof.
  split; [apply wf_stale|].
  exact (getNextState_transition initial_grid stale_heap wf_stale).
Defined.

Lemma elem_of_grid_index (cells : list (list (option nat))) row x y c :
  index cells x = Ok row → index row y = Ok c → c ∈ mjoin cells.
Proof.
  intros [_ Hrow]%index_Ok_inv [_ Hc]%index_Ok_inv.
  apply list_elem_of_join. exists row.
  split; eapply list_elem_of_lookup_2; eauto.
Qed.

Lemma store_outside h p f h' l :
  store h p f = Ok h' → p ≠ Some l → h' !! l = h !! l.
Proof.
  unfold store. destruct p as [l'|]; [|done].
  destruct (h !! l') as [c|]; [|done]. intros [= <-] Hne.
  apply list_lookup_insert_ne. congruence.
Qed.

Lemma decide_cell_outside cells x y c h h' l :
  decide_cell cells x y c h = Ok h' → c ≠ Some l → h' !! l = h !! l.
Proof.
  unfold decide_cell. intros Hrun Hne.
  apply bind_Ok_inv in Hrun as (n & _ & Hrun).
  apply bind_Ok_inv in Hrun as (cv & _ & Hrun).
  destruct (negb (alive cv) && (n =? 3)); [by eapply store_outside|].
  destruct (negb (alive cv)); [by injection Hrun as <-|].
  destruct (alive cv && ((n <? 2) || (n >? 3))); by eapply store_outside.
Qed.

Lemma commit_cell_outside c h h' l :
  commit_cell c h = Ok h' → c ≠ Some l → h' !! l = h !! l.
Proof.
  unfold commit_cell. intros Hrun Hne.
  apply bind_Ok_inv in Hrun as (cv & _ & Hrun). by eapply store_outside.
Qed.

Lemma visit_outside cells body order h h' l :
  (∀ x y c h h', body x y c h = Ok h' → c ≠ Some l → h' !! l = h !! l) →
  Some l ∉ mjoin cells →
  visit cells body order h = Ok h' → h' !! l = h !! l.
Proof.
  intros Hbody Hl. unfold visit.
  apply (foldM_preserves (λ h h' : list cell, h' !! l = h !! l)); [done| |].
  { intros ??? H12 H23. by rewrite H23. }
  intros [x y] s s' _ Hrun.
  apply bind_Ok_inv in Hrun as (row & Hrow & Hrun).
  apply bind_Ok_inv in Hrun as (c & Hc & Hrun).
  eapply Hbody; [exact Hrun|]. intros ->. apply Hl.
  by eapply elem_of_grid_index.
Qed.

(** X4. [getNextState] writes to the cells of the grid only and allocates
    nothing.  On every grid, of any shape and with or without aliases, a
    call that returns leaves the heap with the same number of cells, and
    every cell that no entry of the grid points to is exactly as it was
    before. *)
Theorem getNextState_only_grid_cells cells h h' :
  getNextState cells h = Ok h' →
  length h' = length h ∧
  ∀ l, Some l ∉ mjoin cells → h' !! l = h !! l.
Proof.
  intros Hrun. split.
  - rewrite getNextState_visit in Hrun. unfold getNextState_in in Hrun.
    apply bind_Ok_inv in Hrun as (h1 & Hrun1 & Hrun2).
    assert (H1 : frame h h1).
    { eapply visit_frame, Hrun1. intros ?????. by eapply decide_cell_frame. }
    assert (H2 : frame h1 h').
    { eapply visit_frame, Hrun2. intros ?????. by eapply commit_cell_frame. }
    destruct H1 as [Hlen1 _]. destruct H2 as [Hlen2 _]. congruence.
  - intros l Hl. rewrite getNextState_visit in Hrun.
    unfold getNextState_in in Hrun.
    apply bind_Ok_inv in Hrun as (h1 & Hrun1 & Hrun2).
    etrans.
    + eapply (visit_outside cells (λ _ _, commit_cell)); [|exact Hl|exact Hrun2].
      intros ?????. apply commit_cell_outside.
    + eapply (visit_outside cells (decide_cell cells)); [|exact Hl|exact Hrun1].
      intros ?????. apply decide_cell_outside.
Qed.

Lemma getNextState_only_grid_cells_witness :
  ∃ h', getNextState initial_grid demo_heap = Ok h' ∧
        length h' = length demo_heap ∧
        ∀ l, Some l ∉ mjoin initial_grid → h' !! l = demo_heap !! l.
Proof.
  destruct (getNextState_wf initial_grid demo_heap wf_demo) as (h' & Hrun & _).
  exists h'. split; [exact Hrun|].
  exact (getNextState_only_grid_cells initial_grid demo_heap h' Hrun).
Defined.

(** * More on [aliveNeighbors] *)

(** The values that the loop variable [i] of [aliveNeighbors] takes:
    [x-1], [x], [x+1], or none where [x-1] or [x+2] wraps around. *)
Lemma loop_values x :
  - 2 ^ 63 ≤ x < 2 ^ 63 →
  (- 2 ^ 63 < x < 2 ^ 63 - 2 ∧
   seqZ (wrap (x - 1)) (wrap (x + 2) - wrap (x - 1)) = [x - 1; x; x + 1]) ∨
  ((x = - 2 ^ 63 ∨ 2 ^ 63 - 2 ≤ x) ∧
   seqZ (wrap (x - 1)) (wrap (x + 2) - wrap (x - 1)) = []).
Proof.
  intros Hx.
  assert (- 2 ^ 63 < x < 2 ^ 63 - 2 ∨ x = - 2 ^ 63 ∨ x = 2 ^ 63 - 2 ∨
          x = 2 ^ 63 - 1) as [Hin|[->|[->| ->]]] by lia.
  - left. split; [done|]. rewrite !wrap_small by lia.
    replace (x + 2 - (x - 1)) with 3 by lia. rewrite seqZ_3.
    replace (x - 1 + 1) with x by lia.
    by replace (x - 1 + 2) with (x + 1) by lia.
  - right. split; [lia | reflexivity].
  - right. split; [lia | reflexivity].
  - right. split; [lia | reflexivity].
Qed.

Lemma live_neighbors_far h cells x y :
  x < -1 ∨ columns < x ∨ y < -1 ∨ rows < y →
  live_neighbors h cells x y = [].
Proof.
  intros Hfar. unfold rows, columns in Hfar.
  unfold live_neighbors, moore. cbn [List.filter].
  decide_in_grid. reflexivity.
Qed.

Lemma sumZ_zero {A : Type} (l : list A) : sumZ (λ _ : A, 0) l = 0.
Proof. induction l as [|a l IH]; simpl; lia. Qed.

(** X2. [aliveNeighbors] on any coordinates.  On a grid of [rows] by
    [columns] distinct allocated cells the function never panics,
    whatever [int] values [x] and [y] have, in or out of the grid and up
    to the ends of the range of [int]; it returns the number of live cells
    of the grid among the eight Moore neighbours of [(x, y)], which is 0
    as soon as [(x, y)] is not in the grid or next to it. *)
Theorem aliveNeighbors_any_int cells h x y :
  wf cells h → - 2 ^ 63 ≤ x < 2 ^ 63 → - 2 ^ 63 ≤ y < 2 ^ 63 →
  ∃ n, aliveNeighbors h cells x y = Ok n ∧
       n = Z.of_nat (length (live_neighbors h cells x y)) ∧
       0 ≤ n ≤ 8 ∧
       (x < -1 ∨ columns < x ∨ y < -1 ∨ rows < y → n = 0).
Proof.
  intros Hwf Hx Hy.
  assert (Hcount : aliveNeighbors h cells x y =
                   Ok (Z.of_nat (length (live_neighbors h cells x y)))).
  { rewrite aliveNeighbors_sum by done.
    destruct (loop_values x Hx) as [[Hxin ->]|[Hxout ->]];
      destruct (loop_values y Hy) as [[Hyin ->]|[Hyout ->]].
    - unfold live_neighbors.
      rewrite (length_filter_sumZ
                 (λ '(i, j), in_grid i j && alive_b h cells i j)).
      unfold moore. simpl.
      rewrite contrib_center. rewrite !contrib_moore by lia.
      f_equal. lia.
    - rewrite live_neighbors_far; [done|]. unfold rows, columns. lia.
    - rewrite live_neighbors_far; [done|]. unfold rows, columns. lia.
    - rewrite live_neighbors_far; [done|]. unfold rows, columns. lia. }
  eexists. split; [exact Hcount|]. split; [done|]. split.
  - pose proof (live_neighbors_candidates h cells x y).
    pose proof (candidates_le_8 x y). lia.
  - intros Hfar. by rewrite live_neighbors_far.
Qed.

Lemma aliveNeighbors_any_int_witness :
  wf initial_grid demo_heap ∧
  ∃ n, aliveNeighbors demo_heap initial_grid (-1) (2 ^ 63 - 1) = Ok n ∧
       n = Z.of_nat (length (live_neighbors demo_heap initial_grid (-1)
                               (2 ^ 63 - 1))) ∧
       0 ≤ n ≤ 8 ∧
       (-1 < -1 ∨ columns < -1 ∨ 2 ^ 63 - 1 < -1 ∨ rows < 2 ^ 63 - 1 → n = 0).
Proof.
  split; [apply wf_demo|].
  apply (aliveNeighbors_any_int initial_grid demo_heap (-1) (2 ^ 63 - 1)
           wf_demo); lia.
Defined.

(** * Rendering *)

Lemma range_row_fold {A St : Type} (f : A → St → result St) row k t :
  range_from k row (λ _ c t, f c t) t = foldM f row t.
Proof.
  revert k t. induction row as [|c row IH]; intros k t; simpl; [done|].
  destruct (f c t); simpl; [apply IH | done].
Qed.

(** A loop nest over the cells that does not use the indices runs over
    the pointers of the grid in row-major order. *)
Lemma range_grid_fold {A St : Type} (f : A → St → result St)
    (cells pre suf : list (list A)) t :
  cells = pre ++ suf →
  range_from (length pre) suf
    (λ x _ t, row ← index cells (Z.of_nat x);
              range row (λ _ c t, f c t) t) t =
  foldM f (mjoin suf) t.
Proof.
  revert pre t. induction suf as [|row suf IH]; intros pre t Heq; [done|].
  assert (Hrow : cells !! length pre = Some row).
  { subst cells. by rewrite lookup_app_r, Nat.sub_diag by lia. }
  cbn [range_from mjoin list_join]. rewrite (index_lookup _ _ _ Hrow).
  cbn [mbind result_bind]. unfold range. rewrite range_row_fold.
  change (mjoin (row :: suf)) with (row ++ mjoin suf). rewrite foldM_app.
  destruct (foldM f row t) as [t1|]; simpl; [|done].
  specialize (IH (pre ++ [row]) t1). rewrite length_app in IH. simpl in IH.
  rewrite Nat.add_1_r in IH. apply IH. by rewrite <- app_assoc.
Qed.

Lemma draw_fold C D T (cells : list (list (option nat))) window program h :
  draw C D T cells window program h =
  calls ← foldM (draw_cell T h) (mjoin cells)
            [glClear (Z.lor C D); glUseProgram program];
  Ok (calls ++ [glfwPollEvents; SwapBuffers window]).
Proof.
  unfold draw, range.
  by rewrite (range_grid_fold (draw_cell T h) cells [] cells _ eq_refl).
Qed.

Lemma draw_cell_Some T h p c calls :
  deref h p = Some c →
  draw_cell T h p calls =
  Ok (if alive c then calls ++ cell_draw T c else calls).
Proof.
  intros Hc. unfold draw_cell, load. rewrite Hc. simpl. by destruct (alive c).
Qed.

Lemma draw_cell_None T h p calls :
  deref h p = None → draw_cell T h p calls = Panic NilDereference.
Proof. intros Hc. unfold draw_cell, load. by rewrite Hc. Qed.

Lemma draw_cells_allocated T h ptrs calls :
  Forall (λ p, is_Some (deref h p)) ptrs →
  foldM (draw_cell T h) ptrs calls =
  Ok (calls ++ flat_map (cell_draw T)
                 (List.filter alive (omap (deref h) ptrs))).
Proof.
  intros Hall. revert calls.
  induction Hall as [|p ptrs [c Hc] _ IH]; intros calls.
  { simpl. by rewrite app_nil_r. }
  cbn [foldM omap list_omap]. rewrite (draw_cell_Some _ _ _ _ _ Hc), Hc.
  cbn [mbind result_bind List.filter]. rewrite IH.
  destruct (alive c); [|done]. simpl. by rewrite <- app_assoc.
Qed.

Lemma draw_cells_nil T h ptrs calls :
  Exists (λ p, deref h p = None) ptrs →
  foldM (draw_cell T h) ptrs calls = Panic NilDereference.
Proof.
  intros Hex. revert calls.
  induction ptrs as [|p ptrs IH]; intros calls.
  { by apply Exists_nil in Hex. }
  cbn [foldM].
  destruct (deref h p) as [c|] eqn:Hc.
  - rewrite (draw_cell_Some _ _ _ _ _ Hc). cbn [mbind result_bind].
    apply Exists_cons in Hex as [Hp|Hex]; [congruence|]. by apply IH.
  - by rewrite (draw_cell_None _ _ _ _ Hc).
Qed.

(** X12. [draw] renders exactly the live cells.  On a grid whose cells are
    allocated, of any shape, [draw] does not panic and the calls it makes
    are: clearing the buffers and selecting the program; then, for the
    live cells of the grid in row-major order and for no other cell, the
    binding of the cell's vertex array followed by the drawing of its six
    vertices; then polling the events and swapping the buffers. *)
Theorem draw_live_cells C D T cells window program h :
  Forall (λ p, is_Some (deref h p)) (mjoin cells) →
  draw C D T cells window program h =
  Ok ([glClear (Z.lor C D); glUseProgram program]
      ++ flat_map (λ c, [glBindVertexArray (drawable c); glDrawArrays T 0 6])
           (live_cells h cells)
      ++ [glfwPollEvents; SwapBuffers window]).
Proof.
  intros Hall. rewrite draw_fold.
  rewrite (draw_cells_allocated T h (mjoin cells) _ Hall).
  reflexivity.
Qed.

Lemma draw_live_cells_witness :
  Forall (λ p, is_Some (deref demo_heap p)) (mjoin initial_grid) ∧
  draw 16384 256 4 initial_grid 1 2 demo_heap =
  Ok ([glClear (Z.lor 16384 256); glUseProgram 2]
      ++ flat_map (λ c, [glBindVertexArray (drawable c); glDrawArrays 4 0 6])
           (live_cells demo_heap initial_grid)
      ++ [glfwPollEvents; SwapBuffers 1]).
Proof.
  split; [apply wf_demo|].
  apply (draw_live_cells 16384 256 4 initial_grid 1 2 demo_heap), wf_demo.
Defined.

(** X13. [draw] on a grid with a missing cell.  If some entry of the grid
    is nil, [draw] panics with a nil dereference, whatever the shape of
    the grid and the state of the other cells. *)
Theorem draw_nil_panics C D T cells window program h :
  None ∈ mjoin cells →
  draw C D T cells window program h = Panic NilDereference.
Proof.
  intros Hnil. rewrite draw_fold, draw_cells_nil; [done|].
  apply Exists_exists. by exists None.
Qed.

Lemma draw_nil_panics_witness :
  None ∈ mjoin [[Some 0%nat; None]] ∧
  draw 16384 256 4 [[Some 0%nat; None]] 1 2 demo_heap = Panic NilDereference.
Proof.
  assert (Hnil : None ∈ mjoin [[Some 0%nat; @None nat]]).
  { simpl. apply elem_of_cons. right. apply elem_of_cons. by left. }
  split; [exact Hnil|].
  exact (draw_nil_panics 16384 256 4 [[Some 0%nat; None]] 1 2 demo_heap Hnil).
Defined.

(** X14. The loop of [main].  From a grid of [rows] by [columns] distinct
    allocated cells, any number [n] of iterations of the loop runs without
    a panic and leaves the heap that [n] calls of [getNextState] give;
    they make [n] sequences of calls to the graphics library, and the
    [k]-th of them is what [draw] makes of the grid after [k] calls of
    [getNextState]: a generation is drawn before it is advanced. *)
Theorem main_loop_frames C D T cells window program h n :
  wf cells h →
  ∃ traces h',
    main_loop C D T n cells window program h = Ok (traces, h') ∧
    advance n cells h = Ok h' ∧
    length traces = n ∧
    ∀ k, (k < n)%nat →
      ∃ hk calls, advance k cells h = Ok hk ∧
                  draw C D T cells window program hk = Ok calls ∧
                  traces !! k = Some calls.
Proof.
  revert h. induction n as [|n IH]; intros h Hwf.
  { exists [], h. do 3 (split; [done|]). intros k Hk. lia. }
  destruct (getNextState_wf cells h Hwf) as (h1 & Hstep & Hlen & _).
  destruct (IH h1) as (traces & h' & Hloop & Hadv & Hn & Hk).
  { by eapply wf_length. }
  assert (Hdraw : ∃ calls, draw C D T cells window program h = Ok calls).
  { rewrite draw_fold.
    rewrite (draw_cells_allocated T h (mjoin cells) _ (proj2 (proj2 Hwf))).
    by eexists. }
  destruct Hdraw as [calls0 Hdraw].
  exists (calls0 :: traces), h'. split; [|split; [|split]].
  - simpl. unfold main_frame. rewrite Hdraw, Hstep. simpl.
    by rewrite Hloop.
  - simpl. by rewrite Hstep.
  - simpl. by rewrite Hn.
  - intros [|k] Hlt.
    + exists h, calls0. split; [done|]. split; [exact Hdraw | done].
    + destruct (Hk k) as (hk & calls & Hadvk & Hdrawk & Hlook); [lia|].
      exists hk, calls. split; [|done]. simpl. by rewrite Hstep.
Qed.

Lemma main_loop_frames_witness :
  wf initial_grid demo_heap ∧
  ∃ traces h',
    main_loop 16384 256 4 3 initial_grid 1 2 demo_heap = Ok (traces, h') ∧
    advance 3 initial_grid demo_heap = Ok h' ∧
    length traces = 3%nat.
Proof.
  split; [apply wf_demo|].
  destruct (main_loop_frames 16384 256 4 initial_grid 1 2 demo_heap 3 wf_demo)
    as (traces & h' & Hloop & Hadv & Hlen & _).
  exists traces, h'. split; [exact Hloop|]. split; [exact Hadv | exact Hlen].
Defined.

(** * When [getNextState] panics *)

Lemma foldM_returns {A St : Type} (body : A → St → result St)
    (good : A → Prop) l s :
  (∀ a s, returns (body a s) ↔ good a) →
  returns (foldM body l s) ↔ Forall good l.
Proof.
  intros Hbody. revert s. induction l as [|a l IH]; intros s; simpl.
  { split; [constructor | done]. }
  rewrite Forall_cons, <- (Hbody a s).
  destruct (body a s) as [s'|p]; simpl.
  - rewrite IH. tauto.
  - tauto.
Qed.

Lemma alive_at_returns h cells i j :
  separate cells h →
  returns (alive_at h cells i j) ↔
  0 ≤ i ∧ 0 ≤ j ∧ is_Some (ptr_at cells (Z.to_nat i) (Z.to_nat j)).
Proof.
  intros Hsep. unfold alive_at. split.
  - destruct (cell_at h cells i j) as [c|] eqn:Hc; [|done]. intros _.
    apply cell_at_Ok_inv in Hc as (Hi & Hj & l & Hp & _). eauto.
  - intros (Hi & Hj & [p Hp]).
    destruct (separate_ptr_at _ _ _ _ _ Hsep Hp) as (l & c & -> & Hc).
    by rewrite (cell_at_lookup h cells i j l c Hi Hj Hp Hc).
Qed.

(** The pairs [(i, j)] for which the loops of [aliveNeighbors] reach the
    access [cells[i][j]] are the neighbours of [(x, y)] in
    [[0, columns)] by [[0, rows)]. *)
Lemma accessed_candidates x y i j :
  - 2 ^ 63 ≤ x < 2 ^ 63 → - 2 ^ 63 ≤ y < 2 ^ 63 →
  (i ∈ seqZ (wrap (x - 1)) (wrap (x + 2) - wrap (x - 1)) ∧
   j ∈ seqZ (wrap (y - 1)) (wrap (y + 2) - wrap (y - 1)) ∧
   skip x y i j = false) ↔
  (i, j) ∈ candidates x y.
Proof.
  intros Hx Hy.
  rewrite elem_of_candidates, elem_of_moore, in_grid_true, skip_false.
  unfold rows, columns.
  destruct (loop_values x Hx) as [[Hxin ->]|[Hxout ->]];
    destruct (loop_values y Hy) as [[Hyin ->]|[Hyout ->]];
    rewrite ?elem_of_cons, ?elem_of_nil; lia.
Qed.

Lemma aliveNeighbors_returns h cells x y :
  separate cells h → - 2 ^ 63 ≤ x < 2 ^ 63 → - 2 ^ 63 ≤ y < 2 ^ 63 →
  returns (aliveNeighbors h cells x y) ↔
  ∀ i j, (i, j) ∈ candidates x y →
         is_Some (ptr_at cells (Z.to_nat i) (Z.to_nat j)).
Proof.
  intros Hsep Hx Hy. unfold aliveNeighbors, for_lt.
  rewrite (foldM_returns _
    (λ i, Forall (λ j, skip x y i j = true ∨
                       is_Some (ptr_at cells (Z.to_nat i) (Z.to_nat j)))
           (seqZ (wrap (y - 1)) (wrap (y + 2) - wrap (y - 1))))).
  - rewrite Forall_forall. setoid_rewrite Forall_forall. split.
    + intros Hall i j (Hi & Hj & Hskip)%accessed_candidates; [|done..].
      destruct (Hall i Hi j Hj) as [Hs|Hp]; [congruence | done].
    + intros Hall i Hi j Hj.
      destruct (skip x y i j) eqn:Hskip; [by left|]. right.
      apply Hall, accessed_candidates; auto.
  - intros i c. apply foldM_returns. intros j d.
    destruct (skip x y i j) eqn:Hskip.
    + simpl. split; auto.
    + pose proof (alive_at_returns h cells i j Hsep) as Hret.
      apply skip_false in Hskip as (_ & Hi & Hj).
      assert (Hbody : returns (alive_at h cells i j
                        ≫= λ a : bool, if a then Ok (d + 1) else Ok d)
                      ↔ returns (alive_at h cells i j)).
      { by destruct (alive_at h cells i j) as [[]|]. }
      rewrite Hbody, Hret. split.
      * intros (_ & _ & Hp). by right.
      * intros [?|Hp]; [done|]. split; [lia|]. split; [lia | done].
Qed.

Lemma position_int (cells : list (list (option nat))) x y :
  Z.of_nat (length cells) < 2 ^ 63 →
  Forall (λ row : list (option nat), Z.of_nat (length row) < 2 ^ 63) cells →
  is_Some (ptr_at cells x y) →
  - 2 ^ 63 ≤ Z.of_nat x < 2 ^ 63 ∧ - 2 ^ 63 ≤ Z.of_nat y < 2 ^ 63.
Proof.
  intros Hlen Hrows [p (row & Hrow & Hp)%ptr_at_Some].
  rewrite Forall_forall in Hrows.
  pose proof (Hrows row (list_elem_of_lookup_2 _ _ _ Hrow)).
  apply lookup_lt_Some in Hrow, Hp. lia.
Qed.

(** X5. When [getNextState] panics on a grid of the wrong shape.  The
    guard of [aliveNeighbors] compares the indices with the constants
    [columns] and [rows], not with the lengths of the slices.  So, on a
    grid of distinct allocated cells, of any shape, [getNextState] returns
    exactly when, for every position [(x, y)] of the grid, each of its
    neighbours in [[0, columns)] by [[0, rows)] is a position of the grid
    too; otherwise it panics with an index out of range. *)
Theorem getNextState_returns_iff cells h :
  separate cells h →
  Z.of_nat (length cells) < 2 ^ 63 →
  Forall (λ row : list (option nat), Z.of_nat (length row) < 2 ^ 63) cells →
  (returns (getNextState cells h) ↔
   ∀ x y i j, is_Some (ptr_at cells x y) →
              (i, j) ∈ candidates (Z.of_nat x) (Z.of_nat y) →
              is_Some (ptr_at cells (Z.to_nat i) (Z.to_nat j))) ∧
  (¬ returns (getNextState cells h) →
   getNextState cells h = Panic IndexOutOfRange).
Proof.
  intros Hsep Hlen Hrows.
  assert (Hcount : ∀ x y, is_Some (ptr_at cells x y) →
    (returns (aliveNeighbors h cells (Z.of_nat x) (Z.of_nat y)) ↔
     ∀ i j, (i, j) ∈ candidates (Z.of_nat x) (Z.of_nat y) →
            is_Some (ptr_at cells (Z.to_nat i) (Z.to_nat j)))).
  { intros x y Hxy.
    destruct (position_int cells x y Hlen Hrows Hxy) as [Hx Hy].
    by apply aliveNeighbors_returns. }
  assert (Hall : (∀ x y, is_Some (ptr_at cells x y) →
             returns (aliveNeighbors h cells (Z.of_nat x) (Z.of_nat y))) →
           returns (getNextState cells h)).
  { intros Hgood. rewrite getNextState_visit.
    destruct (getNextState_in_updated cells h (positions cells)
                (positions cells)) as (h1 & h2 & Hrun & _);
      auto using NoDup_positions, positions_valid.
    by rewrite Hrun. }
  assert (Hbad : ∀ x y, is_Some (ptr_at cells x y) →
             ¬ returns (aliveNeighbors h cells (Z.of_nat x) (Z.of_nat y)) →
             getNextState cells h = Panic IndexOutOfRange).
  { intros x y Hxy Hnot. rewrite getNextState_visit.
    apply (getNextState_in_Panic cells h _ _ x y);
      auto using positions_valid. by apply elem_of_positions. }
  split.
  - split.
    + intros Hret x y i j Hxy. apply (Hcount x y Hxy).
      destruct (decide (returns (aliveNeighbors h cells (Z.of_nat x)
                                   (Z.of_nat y)))) as [|Hnot]; [done|].
      by rewrite (Hbad x y Hxy Hnot) in Hret.
    + intros Hpos. apply Hall. intros x y Hxy. apply (Hcount x y Hxy).
      intros i j. by apply Hpos.
  - intros Hnot.
    destruct (decide (Forall
      (λ p, returns (aliveNeighbors h cells (Z.of_nat p.1) (Z.of_nat p.2)))
      (positions cells))) as [Hgood|Hsome].
    + exfalso. apply Hnot, Hall. intros x y Hxy.
      rewrite Forall_forall in Hgood.
      by apply (Hgood (x, y)), elem_of_positions.
    + apply not_Forall_Exists in Hsome; [|apply _].
      apply Exists_exists in Hsome as ([x y] & Hxy & Hbadxy).
      apply (Hbad x y); [by apply elem_of_positions | done].
Qed.

Lemma separate_small : separate small_grid small_heap.
Proof.
  split.
  - change (NoDup (Some <$> seq 0 9)).
    apply NoDup_fmap_2; [|apply NoDup_seq]. by intros ?? [= ->].
  - change (Forall (λ p, is_Some (deref small_heap p)) (Some <$> seq 0 9)).
    apply Forall_fmap, Forall_seq. intros k Hk.
    apply lookup_lt_is_Some_2. simpl in *. lia.
Qed.

Lemma getNextState_returns_iff_witness :
  separate small_grid small_heap ∧
  Z.of_nat (length small_grid) < 2 ^ 63 ∧
  ¬ returns (getNextState small_grid small_heap) ∧
  getNextState small_grid small_heap = Panic IndexOutOfRange.
Proof.
  assert (Hlen : Z.of_nat (length small_grid) < 2 ^ 63) by (simpl; lia).
  assert (Hrows : Forall (λ row : list (option nat),
                            Z.of_nat (length row) < 2 ^ 63) small_grid).
  { repeat constructor. }
  assert (Hnot : ¬ returns (getNextState small_grid small_heap)).
  { rewrite getNextState_small_grid. exact (λ H, H). }
  split; [exact separate_small|]. split; [exact Hlen|]. split; [exact Hnot|].
  exact (proj2 (getNextState_returns_iff small_grid small_heap separate_small
                  Hlen Hrows) Hnot).
Defined.

Lemma foldM_must_panic {A St : Type} (inv : St → Prop)
    (body : A → St → result St) l p :
  (∀ a s, a ∈ l → inv s →
          match body a s with Ok s' => inv s' | Panic q => q = p end) →
  (∃ a, a ∈ l ∧ ∀ s, ¬ returns (body a s)) →
  ∀ s, inv s → foldM body l s = Panic p.
Proof.
  induction l as [|a l IH]; intros Hstep (b & Hb & Hnever) s Hinv.
  { by apply elem_of_nil in Hb. }
  simpl. pose proof (Hstep a s (list_elem_of_here _ _) Hinv) as Ha.
  destruct (body a s) as [s'|q] eqn:Hbody; simpl; [|by rewrite Ha].
  apply IH; [| |done].
  - intros c t Hc. apply Hstep. by right.
  - apply elem_of_cons in Hb as [->|Hb]; [|by exists b].
    exfalso. apply (Hnever s). by rewrite Hbody.
Qed.

Lemma cell_at_Panic_shape h cells i j p :
  shape_ok cells → 0 ≤ i < columns → 0 ≤ j < rows →
  cell_at h cells i j = Panic p → p = NilDereference.
Proof.
  intros Hshape Hi Hj.
  destruct (shape_ok_lookup cells i j Hshape Hi Hj)
    as [ptr (row & Hrow & Hp)%ptr_at_Some].
  unfold cell_at, index.
  destruct (Z.ltb_spec i 0); [lia|]. rewrite Hrow. simpl.
  destruct (Z.ltb_spec j 0); [lia|]. rewrite Hp. simpl.
  unfold load. destruct (deref h ptr); congruence.
Qed.

Lemma aliveNeighbors_Panic_shape h cells x y p :
  shape_ok cells → aliveNeighbors h cells x y = Panic p →
  p = NilDereference.
Proof.
  intros Hshape. unfold aliveNeighbors, for_lt.
  intros (i & c & _ & Hinner)%foldM_Panic_inv.
  apply foldM_Panic_inv in Hinner as (j & d & _ & Hbody).
  destruct (skip x y i j) eqn:Hskip; [done|].
  apply skip_false in Hskip as (_ & Hi & Hj). unfold alive_at in Hbody.
  destruct (cell_at h cells i j) as [cv|q] eqn:Hc; simpl in Hbody.
  - by destruct (alive cv).
  - injection Hbody as <-.
    exact (cell_at_Panic_shape h cells i j q Hshape Hi Hj Hc).
Qed.

Lemma store_after_load h c cv f :
  load h c = Ok cv → returns (store h c f).
Proof.
  unfold load, store. destruct c as [l|]; simpl; [|done].
  by destruct (h !! l).
Qed.

Lemma decide_cell_Panic_shape cells x y c h p :
  shape_ok cells → decide_cell cells x y c h = Panic p →
  p = NilDereference.
Proof.
  intros Hshape. unfold decide_cell.
  destruct (aliveNeighbors h cells x y) as [n|q] eqn:Hn; simpl.
  2:{ intros [= <-]. by eapply aliveNeighbors_Panic_shape. }
  destruct (load h c) as [cv|q] eqn:Hload; simpl.
  2:{ unfold load in Hload. destruct (deref h c); congruence. }
  pose proof (store_after_load h c cv (set_aliveNext true) Hload) as Ht.
  pose proof (store_after_load h c cv (set_aliveNext false) Hload) as Hf.
  destruct (negb (alive cv) && (n =? 3));
    [by destruct (store h c (set_aliveNext true))|].
  destruct (negb (alive cv)); [done|].
  destruct (alive cv && ((n <? 2) || (n >? 3)));
    [by destruct (store h c (set_aliveNext false))
    |by destruct (store h c (set_aliveNext true))].
Qed.

Lemma decide_cell_nil cells x y h : ¬ returns (decide_cell cells x y None h).
Proof.
  unfold decide_cell. destruct (aliveNeighbors h cells x y); simpl; tauto.
Qed.

Lemma elem_of_grid_position (cells : list (list (option nat))) p :
  p ∈ mjoin cells → ∃ x y, ptr_at cells x y = Some p.
Proof.
  intros (row & Hp & Hrow)%list_elem_of_join.
  apply list_elem_of_lookup_1 in Hp as [y Hy].
  apply list_elem_of_lookup_1 in Hrow as [x Hx].
  exists x, y. apply ptr_at_Some. eauto.
Qed.

(** X6. [getNextState] on a grid with a missing cell.  If a grid of [rows]
    by [columns] entries has a nil entry, [getNextState] panics with a nil
    dereference, whatever the state of the other cells: no index is ever
    out of range, and the first pass stops at the latest when it reaches
    the nil entry. *)
Theorem getNextState_nil_panics cells h :
  shape_ok cells → None ∈ mjoin cells →
  getNextState cells h = Panic NilDereference.
Proof.
  intros Hshape (x0 & y0 & Hnil)%elem_of_grid_position.
  rewrite getNextState_visit. unfold getNextState_in.
  assert (Hpass : visit cells (decide_cell cells) (positions cells) h =
                  Panic NilDereference); [|by rewrite Hpass].
  unfold visit. apply (foldM_must_panic (λ _, True)); [| |done].
  - intros [x y] s [p (row & Hrow & Hp)%ptr_at_Some]%elem_of_positions _.
    rewrite (index_lookup _ _ _ Hrow). simpl.
    rewrite (index_lookup _ _ _ Hp). simpl.
    destruct (decide_cell cells (Z.of_nat x) (Z.of_nat y) p s) as [s'|q] eqn:Hd;
      [done|]. by eapply decide_cell_Panic_shape.
  - exists (x0, y0). split; [apply elem_of_positions; eauto|].
    intros s. pose proof Hnil as (row & Hrow & Hp)%ptr_at_Some.
    rewrite (index_lookup _ _ _ Hrow). simpl.
    rewrite (index_lookup _ _ _ Hp). simpl.
    apply decide_cell_nil.
Qed.

Lemma shape_ok_holed_grid : shape_ok holed_grid.
Proof.
  split; [reflexivity|].
  apply Forall_fmap, Forall_seq. intros i _. reflexivity.
Qed.

Lemma holed_grid_nil : None ∈ mjoin holed_grid.
Proof. apply (ptr_at_elem_of holed_grid 3 4). reflexivity. Qed.

Lemma getNextState_nil_panics_witness :
  shape_ok holed_grid ∧ None ∈ mjoin holed_grid ∧
  getNextState holed_grid demo_heap = Panic NilDereference.
Proof.
  split; [exact shape_ok_holed_grid|]. split; [exact holed_grid_nil|].
  exact (getNextState_nil_panics holed_grid demo_heap shape_ok_holed_grid
           holed_grid_nil).
Defined.

(** * Symmetries *)

Lemma in_grid_swap i j : in_grid i j = in_grid j i.
Proof.
  unfold in_grid, rows, columns.
  destruct (0 <=? i), (i <? 30), (0 <=? j), (j <? 30); reflexivity.
Qed.

Lemma in_grid_mirror i j : in_grid (columns - 1 - i) j = in_grid i j.
Proof.
  unfold in_grid, rows, columns.
  destruct (Z.leb_spec 0 i), (Z.ltb_spec i 30), (Z.leb_spec 0 (30 - 1 - i)),
    (Z.ltb_spec (30 - 1 - i) 30); try lia; reflexivity.
Qed.

Lemma count_live_transpose P x y :
  count_live (transpose P) x y = count_live P y x.
Proof.
  unfold count_live, moore, sumZ, transpose. cbn [foldr].
  rewrite (in_grid_swap (x - 1) (y - 1)), (in_grid_swap (x - 1) y),
    (in_grid_swap (x - 1) (y + 1)), (in_grid_swap x (y - 1)),
    (in_grid_swap x (y + 1)), (in_grid_swap (x + 1) (y - 1)),
    (in_grid_swap (x + 1) y), (in_grid_swap (x + 1) (y + 1)).
  lia.
Qed.

Lemma count_live_mirror P x y :
  count_live (mirror P) x y = count_live P (columns - 1 - x) y.
Proof.
  unfold count_live, moore, sumZ, mirror. cbn [foldr].
  rewrite <- (in_grid_mirror (x - 1) (y - 1)), <- (in_grid_mirror (x - 1) y),
    <- (in_grid_mirror (x - 1) (y + 1)), <- (in_grid_mirror x (y - 1)),
    <- (in_grid_mirror x (y + 1)), <- (in_grid_mirror (x + 1) (y - 1)),
    <- (in_grid_mirror (x + 1) y), <- (in_grid_mirror (x + 1) (y + 1)).
  replace (columns - 1 - (x - 1)) with (columns - 1 - x + 1) by lia.
  replace (columns - 1 - (x + 1)) with (columns - 1 - x - 1) by lia.
  lia.
Qed.

Lemma life_step_transpose P i j :
  life_step (transpose P) i j = transpose (life_step P) i j.
Proof. unfold life_step. by rewrite count_live_transpose. Qed.

Lemma life_step_mirror P i j :
  life_step (mirror P) i j = mirror (life_step P) i j.
Proof. unfold life_step. by rewrite count_live_mirror. Qed.

Lemma life_steps_transpose n P i j :
  in_grid i j = true →
  life_steps n (transpose P) i j = transpose (life_steps n P) i j.
Proof.
  revert P i j. induction n as [|n IH]; intros P i j Hg; [done|].
  simpl. rewrite <- IH by done.
  apply life_steps_ext; [|done]. intros i' j' _. apply life_step_transpose.
Qed.

Lemma life_steps_mirror n P i j :
  in_grid i j = true →
  life_steps n (mirror P) i j = mirror (life_steps n P) i j.
Proof.
  revert P i j. induction n as [|n IH]; intros P i j Hg; [done|].
  simpl. rewrite <- IH by done.
  apply life_steps_ext; [|done]. intros i' j' _. apply life_step_mirror.
Qed.

(** X15. The engine respects the symmetries of the square board.  Take two
    clean grids of [rows] by [columns] distinct allocated cells, the
    second showing the first one's matrix with the two coordinates
    exchanged (or with the first coordinate reversed).  After [n] calls of
    [getNextState] on each, the second still shows the matrix of the
    first with the coordinates exchanged (or reversed). *)
Theorem advance_symmetric cells1 h1 cells2 h2 P n
    (s : (Z → Z → bool) → Z → Z → bool) :
  s = transpose ∨ s = mirror →
  wf cells1 h1 → clean h1 cells1 → shows h1 cells1 P →
  wf cells2 h2 → clean h2 cells2 → shows h2 cells2 (s P) →
  ∃ h1' h2',
    advance n cells1 h1 = Ok h1' ∧ advance n cells2 h2 = Ok h2' ∧
    shows h1' cells1 (life_steps n P) ∧
    shows h2' cells2 (s (life_steps n P)).
Proof.
  intros Hs Hwf1 Hclean1 Hshow1 Hwf2 Hclean2 Hshow2.
  destruct (advance_shows cells1 h1 P n Hwf1 Hclean1 Hshow1)
    as (h1' & Hrun1 & _ & _ & Hshow1').
  destruct (advance_shows cells2 h2 (s P) n Hwf2 Hclean2 Hshow2)
    as (h2' & Hrun2 & _ & _ & Hshow2').
  exists h1', h2'. do 3 (split; [done|]).
  eapply shows_ext; [|exact Hshow2']. intros i j Hg.
  destruct Hs as [-> | ->].
  - by apply life_steps_transpose.
  - by apply life_steps_mirror.
Qed.

Lemma advance_symmetric_witness :
  ∃ h1' h2',
    advance 2 initial_grid (matrix_heap (blinker_x 3 1)) = Ok h1' ∧
    advance 2 initial_grid (matrix_heap (transpose (blinker_x 3 1))) = Ok h2' ∧
    shows h1' initial_grid (life_steps 2 (blinker_x 3 1)) ∧
    shows h2' initial_grid (transpose (life_steps 2 (blinker_x 3 1))).
Proof.
  exact (advance_symmetric initial_grid (matrix_heap (blinker_x 3 1))
           initial_grid (matrix_heap (transpose (blinker_x 3 1)))
           (blinker_x 3 1) 2 transpose (or_introl eq_refl)
           (wf_matrix_heap _) (clean_matrix_heap _) (shows_matrix_heap _)
           (wf_matrix_heap _) (clean_matrix_heap _) (shows_matrix_heap _)).
Defined.
